(** * Pose-estimation pipeline of labelme/_automation/pose_estimation.py

    A shallow embedding of the multi-backend keypoint detection module:
    the shape projector [get_shapes_from_poses], the estimator's
    configuration resolution, the KeypointRCNN detection paths (full image
    and box guided, with the IoU fallback), the letterbox geometry of the
    YOLOv7 path, and the two module-level entry points [detect_poses] and
    [estimate_poses].

    Numbers: Python floats are modelled by exact rationals [Q]; integers by
    [Z].  Exceptions are modelled by the [exc] error type; third-party
    inference calls (torch, torchvision, mmpose) are oracles that return
    either a value or an exception. *)

From Stdlib Require Import QArith Qround Qabs ZArith Lia Lqa.
From stdpp Require Import base option list strings gmap.

Local Open Scope Z_scope.

(** ** Python exceptions and the error monad *)

Inductive exn : Type :=
| ImportError
| IndexError
| ValueError
| AttributeError
| TypeError
| FileNotFoundError
| RuntimeError
| ZeroDivisionError
| Cv2Error.

Inductive exc (A : Type) : Type :=
| Val (a : A)
| Raise (e : exn).
Arguments Val {A} a.
Arguments Raise {A} e.

(** [exc] is a monad in stdpp's sense: [x ← m; k] runs [m] and aborts on an
    exception. *)
#[export] Instance exc_ret : MRet exc := fun A a => Val a.
#[export] Instance exc_bind : MBind exc := fun A B k m =>
  match m with
  | Val a => k a
  | Raise e => Raise e
  end.

(** [try: body  except Exception: handler] *)
Definition try_except {A} (body : exc A) (handler : exn -> exc A) : exc A :=
  match body with
  | Val a => Val a
  | Raise e => handler e
  end.

(** Sequencing a fallible body over a list, collecting the results in order
    (a [for] loop that appends to a local list and aborts on the first
    exception). *)
Fixpoint exc_mapM {A B} (f : A -> exc B) (l : list A) : exc (list B) :=
  match l with
  | [] => Val []
  | a :: l' =>
      match f a with
      | Raise e => Raise e
      | Val b =>
          match exc_mapM f l' with
          | Raise e => Raise e
          | Val bs => Val (b :: bs)
          end
      end
  end.

(** [enumerate(l)] *)
Definition enumerate {A} (l : list A) : list (nat * A) :=
  zip (seq 0 (length l)) l.

(** ** Numeric helpers *)

(** [a > b] on floats *)
Definition Qgtb (a b : Q) : bool := negb (Qle_bool a b).
(** [a >= b] on floats *)
Definition Qgeb (a b : Q) : bool := Qle_bool b a.
(** [a < b] on floats *)
Definition Qltb (a b : Q) : bool := negb (Qle_bool b a).

Definition Qmaxq (a b : Q) : Q := if Qle_bool a b then b else a.
Definition Qminq (a b : Q) : Q := if Qle_bool a b then a else b.

(** Python truthiness of a float: [0.0] is falsy. *)
Definition Q_truthy (q : Q) : bool := negb (Qeq_bool q 0).

(** [int(x)] on a float truncates towards zero. *)
Definition py_int (q : Q) : Z := Z.quot (Qnum q) (Z.pos (Qden q)).

(** [round(x)] on a float rounds half to even (Python 3). *)
Definition py_round (q : Q) : Z :=
  let f := Qfloor q in
  let d := (q - inject_Z f)%Q in
  if Qltb d (1 # 2) then f
  else if Qltb (1 # 2) d then f + 1
  else if Z.even f then f else f + 1.

(** ** Data model *)

(** A keypoint row [[x, y, conf]]. *)
Record Keypoint : Type := mkKpt { kx : Q; ky : Q; kconf : Q }.

(** One instance's keypoints, [K, 3]. *)
Abbreviation Pose := (list Keypoint).

Inductive ShapeType : Type := point | line.

#[export] Instance ShapeType_eq_dec : EqDecision ShapeType.
Proof. solve_decision. Defined.

(** The shape dictionaries produced by [get_shapes_from_poses]. *)
Record Shape : Type := mkShape {
  label : string;
  points : list (Q * Q);
  group_id : Z;
  shape_type : ShapeType;
  flags : gmap string bool
}.

Definition COCO_KEYPOINTS : list string :=
  [ "nose"; "left_eye"; "right_eye"; "left_ear"; "right_ear";
    "left_shoulder"; "right_shoulder"; "left_elbow"; "right_elbow";
    "left_wrist"; "right_wrist"; "left_hip"; "right_hip";
    "left_knee"; "right_knee"; "left_ankle"; "right_ankle" ]%string.

Definition COCO_SKELETON : list (nat * nat) :=
  [ (5, 7); (7, 9); (6, 8); (8, 10); (5, 6); (5, 11); (6, 12); (11, 12);
    (11, 13); (13, 15); (12, 14); (14, 16); (0, 1); (0, 2); (1, 3); (2, 4);
    (0, 5); (0, 6) ]%nat.

(** [seq[i]] with a non-negative index: [IndexError] out of range. *)
Definition index {A} (l : list A) (i : nat) : exc A :=
  match l !! i with
  | Some a => Val a
  | None => Raise IndexError
  end.

(** Python truthiness of an optional boolean argument ([None] is falsy). *)
Definition truthy (b : option bool) : bool :=
  match b with
  | Some true => true
  | _ => false
  end.

(** ** ShapeProjector: [get_shapes_from_poses] *)

Definition limb_label (p1_name p2_name : string) : string :=
  ("limb_" +:+ p1_name +:+ "_" +:+ p2_name)%string.

(** Body of the loop [for j, (x, y, conf) in enumerate(kpts)]: the shapes
    appended for keypoint [j]. *)
Definition keypoint_shapes (group : Z) (jk : nat * Keypoint) : exc (list Shape) :=
  let '(j, k) := jk in
  if Qgtb (kconf k) 0 then
    kpt_name ← index COCO_KEYPOINTS j;
    Val [ {| label := kpt_name;
             points := [ (kx k, ky k) ];
             group_id := group;
             shape_type := point;
             flags := ∅ |} ]
  else Val [].

(** Body of the loop [for p1_idx, p2_idx in COCO_SKELETON]. *)
Definition limb_shapes (kpts : Pose) (group : Z) (e : nat * nat) : exc (list Shape) :=
  let '(p1_idx, p2_idx) := e in
  p1 ← index kpts p1_idx;
  p2 ← index kpts p2_idx;
  if Qgtb (kconf p1) 0 && Qgtb (kconf p2) 0 then
    p1_name ← index COCO_KEYPOINTS p1_idx;
    p2_name ← index COCO_KEYPOINTS p2_idx;
    Val [ {| label := limb_label p1_name p2_name;
             points := [ (kx p1, ky p1); (kx p2, ky p2) ];
             group_id := group;
             shape_type := line;
             flags := ∅ |} ]
  else Val [].

(** Body of the outer loop [for i, kpts in enumerate(keypoints)]; the unused
    local [score] is left out. *)
Definition pose_shapes (start_group_id : Z) (draw_skeleton : option bool)
    (ik : nat * Pose) : exc (list Shape) :=
  let '(i, kpts) := ik in
  let group := start_group_id + Z.of_nat i in
  pts ← exc_mapM (keypoint_shapes group) (enumerate kpts);
  limbs ← (if truthy draw_skeleton
           then exc_mapM (limb_shapes kpts group) COCO_SKELETON
           else Val []);
  Val (concat pts ++ concat limbs).

Definition get_shapes_from_poses (keypoints : list Pose) (scores : list Q)
    (start_group_id : Z) (draw_skeleton : option bool) : exc (list Shape) :=
  per_pose ← exc_mapM (pose_shapes start_group_id draw_skeleton)
                      (enumerate keypoints);
  Val (concat per_pose).

(** ** Images and third-party inference *)

(** An image array of shape [(height, width, 3)]. *)
Record Image : Type := mkImage {
  height : Z;
  width : Z;
  pixels : Z -> Z -> Z * Z * Z
}.

(** [image[y1:y2, x1:x2].copy()] for [0 <= y1, y2 < height] and
    [0 <= x1, x2 < width], the only slices the module takes. *)
Definition crop (image : Image) (y1 y2 x1 x2 : Z) : Image :=
  {| height := Z.max 0 (y2 - y1);
     width := Z.max 0 (x2 - x1);
     pixels := fun r c => pixels image (r + y1) (c + x1) |}.

(** [cv2.cvtColor(image, cv2.COLOR_BGR2RGB)] *)
Definition cvtColor_BGR2RGB (image : Image) : Image :=
  {| height := height image;
     width := width image;
     pixels := fun r c => let '(b, g, r') := pixels image r c in (r', g, b) |}.

(** A box [[x1, y1, x2, y2]]. *)
Abbreviation Box := (Q * Q * Q * Q)%type.

(** One detected instance of a torchvision KeypointRCNN prediction
    dictionary: entry [n] of the parallel arrays ['boxes'], ['scores'] and
    ['keypoints'] (rows [[x, y, visibility]]). *)
Record Instance : Type := mkInstance {
  ibox : Box;
  iscore : Q;
  ikeypoints : list Keypoint
}.

(** One instance returned by mmpose for a box: keypoints with their scores
    and, when the attribute exists, the instance score. *)
Record TopDownInstance : Type := mkTopDown {
  td_keypoints : list Keypoint;
  td_score : option Q
}.

(** One post-NMS YOLOv7 detection row: [conf] and the 17 keypoints in
    letterboxed coordinates. *)
Record Detection : Type := mkDetection {
  det_conf : Q;
  det_kpts : list Keypoint
}.

(** The pose-estimation section of the configuration file, as returned by
    [ConfigLoader().get_pose_estimation_config()]; a field is [None] when
    the key is absent from the dictionary. *)
Record PoseConfig : Type := mkPoseConfig {
  cfg_model_name : option string;
  cfg_conf_threshold : option Q;
  cfg_device : option string;
  cfg_keypoint_threshold : option Q;
  cfg_advanced : option (gmap string Q);
  cfg_draw_skeleton : option bool
}.

(** Everything the module obtains from outside: installed packages, the
    configuration file, and the outcome of every third-party call.  Each
    call either returns or raises. *)
Record World : Type := mkWorld {
  HAS_TORCH : bool;
  get_pose_estimation_config : exc PoseConfig;
  yolov7_importable : bool;
  cuda_is_available : bool;
  (* outcome of the three model loaders *)
  load_rtmpose_model : string -> exc unit;
  load_keypointrcnn_model : Q -> exc unit;
  load_yolov7_pose_model : exc unit;
  (* [self.model(tensor)] of a loaded KeypointRCNN on the tensor of an image *)
  keypointrcnn : Image -> exc (list Instance);
  (* mmpose [inference_topdown] followed by [merge_data_samples]: the raw
     keypoint rows and scores of [pred_instances] *)
  rtmpose_full : Image -> exc (list (list (list Q)) * list Q);
  rtmpose_boxes : Image -> list Box -> exc (list TopDownInstance);
  (* attribute [self.imgsz], and letterbox + forward pass + NMS of YOLOv7 *)
  yolov7_imgsz : exc Q;
  yolov7_infer : Image -> exc (list Detection)
}.

(** ** BackendConfig: [PoseEstimator.__init__] *)

Record PoseEstimator : Type := mkEstimator {
  model_name : string;
  conf_threshold : Q;
  device : string;
  keypoint_threshold : Q;
  advanced_params : gmap string Q;
  draw_skeleton : bool;
  is_rtmpose : bool;
  is_keypointrcnn : bool
}.

(** [arg or default] for an optional float argument: [None] and [0.0] are
    both falsy. *)
Definition or_float (arg : option Q) (dflt : Q) : Q :=
  match arg with
  | Some q => if Q_truthy q then q else dflt
  | None => dflt
  end.

(** [arg or default] for an optional string argument. *)
Definition or_string (arg : option string) (dflt : string) : string :=
  match arg with
  | Some s => if decide (s = EmptyString) then dflt else s
  | None => dflt
  end.

(** [arg or default] for an optional dictionary argument. *)
Definition or_dict (arg : option (gmap string Q)) (dflt : gmap string Q)
    : gmap string Q :=
  match arg with
  | Some d => if decide (d = ∅) then dflt else d
  | None => dflt
  end.

(** [d.get(key, default)] *)
Definition dict_get (d : gmap string Q) (key : string) (dflt : Q) : Q :=
  default dflt (d !! key).

Definition rtmpose_configs : list string :=
  [ "rtmpose_tiny"; "rtmpose_s"; "rtmpose_m"; "rtmpose_l" ]%string.

Definition KEYPOINTRCNN : string := "keypointrcnn_resnet50_fpn".

Definition PoseEstimator_init (w : World)
    (model_name_arg : option string) (device_arg : option string)
    (conf_threshold_arg keypoint_threshold_arg : option Q)
    (advanced_params_arg : option (gmap string Q))
    (draw_skeleton_arg : option bool) : exc PoseEstimator :=
  if negb (HAS_TORCH w) then Raise ImportError else
  pose_config ← get_pose_estimation_config w;
  let model_name := or_string model_name_arg
                      (default KEYPOINTRCNN (cfg_model_name pose_config)) in
  let conf_threshold := or_float conf_threshold_arg
                      (default (1 # 2)%Q (cfg_conf_threshold pose_config)) in
  let device := or_string device_arg
                      (default "cpu"%string (cfg_device pose_config)) in
  let keypoint_threshold := or_float keypoint_threshold_arg
                      (default (2 # 10)%Q (cfg_keypoint_threshold pose_config)) in
  let advanced_params := or_dict advanced_params_arg
                      (default ∅ (cfg_advanced pose_config)) in
  let draw_skeleton :=
    match draw_skeleton_arg with
    | Some b => b
    | None => default true (cfg_draw_skeleton pose_config)
    end in
  let is_rtmpose := bool_decide (String.prefix "rtmpose" model_name = true) in
  let is_keypointrcnn := bool_decide (model_name = KEYPOINTRCNN) in
  let '(model_name, is_keypointrcnn) :=
    if negb is_rtmpose && negb is_keypointrcnn && negb (yolov7_importable w)
    then (KEYPOINTRCNN, true)
    else (model_name, is_keypointrcnn) in
  let device :=
    if cuda_is_available w && bool_decide (device = "cuda"%string)
    then "cuda"%string else "cpu"%string in
  (* self.model = self._load_model() *)
  let model_name :=
    if is_rtmpose && negb (bool_decide (model_name ∈ rtmpose_configs))
    then "rtmpose_s"%string else model_name in
  _ ← (if is_rtmpose then load_rtmpose_model w model_name
       else if is_keypointrcnn then load_keypointrcnn_model w conf_threshold
       else load_yolov7_pose_model w);
  Val {| model_name := model_name;
         conf_threshold := conf_threshold;
         device := device;
         keypoint_threshold := keypoint_threshold;
         advanced_params := advanced_params;
         draw_skeleton := draw_skeleton;
         is_rtmpose := is_rtmpose;
         is_keypointrcnn := is_keypointrcnn |}.

(** ** BackendAdapter, full-image paths *)

(** [sum(1 for _, _, conf in kpts if conf >= threshold)] *)
Fixpoint visible_keypoints (threshold : Q) (kpts : Pose) : Z :=
  match kpts with
  | [] => 0
  | k :: kpts' =>
      (if Qgeb (kconf k) threshold then 1 else 0)
      + visible_keypoints threshold kpts'
  end.

(** [len(l) >= n] where [n] is read from the advanced parameters. *)
Definition len_ge {A} (l : list A) (n : Q) : bool :=
  Qgeb (inject_Z (Z.of_nat (length l))) n.

(** *** KeypointRCNN *)

(** [conf = vis / 2.0 if vis > 0 else 0.0] *)
Definition visibility_to_confidence (vis : Q) : Q :=
  if Qgtb vis 0 then (vis / 2)%Q else 0%Q.

Definition convert_keypoint (kpt : Keypoint) : Keypoint :=
  {| kx := kx kpt; ky := ky kpt;
     kconf := visibility_to_confidence (kconf kpt) |}.

(** The loop [for i, kpts in enumerate(keypoints)] of
    [_detect_keypointrcnn], over the instances that passed the score mask. *)
Fixpoint keypointrcnn_collect (est : PoseEstimator) (max_poses min_keypoints : Q)
    (instances : list Instance)
    (keypoints_list : list Pose) (scores_list : list Q)
    : list Pose * list Q :=
  match instances with
  | [] => (keypoints_list, scores_list)
  | inst :: rest =>
      let kpts_list := map convert_keypoint (ikeypoints inst) in
      let visible := visible_keypoints (keypoint_threshold est) kpts_list in
      if Qgeb (inject_Z visible) min_keypoints then
        let keypoints_list := keypoints_list ++ [kpts_list] in
        let scores_list := scores_list ++ [iscore inst] in
        if len_ge keypoints_list max_poses
        then (keypoints_list, scores_list)
        else keypointrcnn_collect est max_poses min_keypoints rest
               keypoints_list scores_list
      else keypointrcnn_collect est max_poses min_keypoints rest
             keypoints_list scores_list
  end.

Definition _detect_keypointrcnn (w : World) (est : PoseEstimator)
    (image : Image) : exc (list Pose * list Q) :=
  predictions ← keypointrcnn w (cvtColor_BGR2RGB image);
  let masked :=
    List.filter (fun inst => Qgeb (iscore inst) (conf_threshold est))
                predictions in
  let max_poses := dict_get (advanced_params est) "max_poses" 20 in
  let min_keypoints := dict_get (advanced_params est) "min_keypoints" 5 in
  Val (keypointrcnn_collect est max_poses min_keypoints masked [] []).

(** *** RTMPose *)

(** Unpacking a row as [_, _, conf]: exactly three values are required. *)
Definition unpack3 (row : list Q) : exc Keypoint :=
  match row with
  | [x; y; conf] => Val (mkKpt x y conf)
  | _ => Raise ValueError
  end.

(** The loop [for i, (kpts, score) in enumerate(zip(keypoints, scores))]. *)
Fixpoint rtmpose_collect (est : PoseEstimator) (max_poses min_keypoints : Q)
    (zipped : list (list (list Q) * Q))
    (valid_poses : list Pose) (valid_scores : list Q)
    : exc (list Pose * list Q) :=
  match zipped with
  | [] => Val (valid_poses, valid_scores)
  | (rows, score) :: rest =>
      kpts ← exc_mapM unpack3 rows;
      let visible := visible_keypoints (keypoint_threshold est) kpts in
      if Qgeb (inject_Z visible) min_keypoints
         && Qgeb score (conf_threshold est) then
        let valid_poses := valid_poses ++ [kpts] in
        let valid_scores := valid_scores ++ [score] in
        if len_ge valid_poses max_poses
        then Val (valid_poses, valid_scores)
        else rtmpose_collect est max_poses min_keypoints rest
               valid_poses valid_scores
      else rtmpose_collect est max_poses min_keypoints rest
             valid_poses valid_scores
  end.

Definition _detect_rtmpose (w : World) (est : PoseEstimator)
    (image : Image) : exc (list Pose * list Q) :=
  try_except
    (let max_poses := dict_get (advanced_params est) "max_poses" 20 in
     let min_keypoints := dict_get (advanced_params est) "min_keypoints" 5 in
     '(keypoints, scores) ← rtmpose_full w image;
     rtmpose_collect est max_poses min_keypoints (zip keypoints scores) [] [])
    (fun _ => Val ([], [])).

(** ** GeometryTransform: [_letterbox] and the inverse mapping *)

Record Letterbox : Type := mkLetterbox {
  new_unpad : Z * Z;          (* (width, height) after the resize *)
  ratio : Q * Q;
  dw : Q;
  dh : Q;
  top : Z;
  bottom : Z;
  left : Z;
  right : Z
}.

(** The arithmetic of [_letterbox(img, new_shape, stride)] on an image of
    shape [(shape_h, shape_w)] with an integer [new_shape] (lines 1121-1131
    and 1137-1138); [stride] is accepted and not used by the body.  The
    record holds the geometry of the returned image together with the
    returned [ratio] and [(dw, dh)].  Floats are exact rationals here, so a
    product that binary64 places just beside a rounding tie is rounded from
    its exact value: for a 1408 x 143 image at 960 the exact resized height
    97.5 is rounded to 98, where binary64 computes a product just below
    97.5 and rounds it to 97. *)
Definition letterbox_geometry (shape_h shape_w : Z) (new_shape : Z) (stride : Z)
    : Letterbox :=
  let new_shape := (new_shape, new_shape) in
  let r := Qminq (inject_Z (fst new_shape) / inject_Z shape_h)
                 (inject_Z (snd new_shape) / inject_Z shape_w) in
  let new_unpad := (py_round (inject_Z shape_w * r),
                    py_round (inject_Z shape_h * r)) in
  let dw := inject_Z (snd new_shape - fst new_unpad) in
  let dh := inject_Z (fst new_shape - snd new_unpad) in
  let dw := (dw / 2)%Q in
  let dh := (dh / 2)%Q in
  {| new_unpad := new_unpad;
     ratio := (r, r);
     dw := dw;
     dh := dh;
     top := py_round (dh - (1 # 10));
     bottom := py_round (dh + (1 # 10));
     left := py_round (dw - (1 # 10));
     right := py_round (dw + (1 # 10)) |}.

(** [cv2.resize(img, new_unpad)] is called when [shape[::-1] != new_unpad]
    and raises when a side of [new_unpad] is not positive. *)
Definition resize_fails (shape_h shape_w : Z) (g : Letterbox) : bool :=
  negb (bool_decide (new_unpad g = (shape_w, shape_h)))
  && ((fst (new_unpad g) <=? 0) || (snd (new_unpad g) <=? 0)).

(** [cv2.copyMakeBorder] raises on a negative border width. *)
Definition border_fails (g : Letterbox) : bool :=
  (top g <? 0) || (bottom g <? 0) || (left g <? 0) || (right g <? 0).

(** [_letterbox(img, new_shape, stride)]: the division of line 1121 raises
    on an empty image, [cv2.resize] and [cv2.copyMakeBorder] raise as
    above; otherwise the geometry is returned. *)
Definition _letterbox (shape_h shape_w : Z) (new_shape : Z) (stride : Z)
    : exc Letterbox :=
  if (shape_h =? 0) || (shape_w =? 0) then Raise ZeroDivisionError
  else
    let g := letterbox_geometry shape_h shape_w new_shape stride in
    if resize_fails shape_h shape_w g then Raise Cv2Error
    else if border_fails g then Raise Cv2Error
    else Val g.

(** Where the pixel at [(x, y)] of the source image lands in the image
    returned by [_letterbox]: [cv2.resize] to [new_unpad] scales each axis
    by [new_unpad / shape], [cv2.copyMakeBorder] then shifts by
    [(left, top)]. *)
Definition letterbox_forward (shape_h shape_w : Z) (lb : Letterbox)
    (p : Q * Q) : Q * Q :=
  let '(x, y) := p in
  (x * inject_Z (fst (new_unpad lb)) / inject_Z shape_w + inject_Z (left lb),
   y * inject_Z (snd (new_unpad lb)) / inject_Z shape_h + inject_Z (top lb))%Q.

(** The coordinate adjustment of the YOLOv7 paths: [r], [pad_w], [pad_h]
    are recomputed from the source size, and the crop origin [(x1, y1)] is
    added ([(0, 0)] on the full-image path). *)
Definition unletterbox (imgsz : Q) (image_height image_width : Z)
    (origin : Z * Z) (p : Q * Q) : Q * Q :=
  let '(x, y) := p in
  let r := Qminq (imgsz / inject_Z image_width)
                 (imgsz / inject_Z image_height) in
  let pad_w := ((imgsz - inject_Z image_width * r) / 2)%Q in
  let pad_h := ((imgsz - inject_Z image_height * r) / 2)%Q in
  ((x - pad_w) / r + inject_Z (fst origin),
   (y - pad_h) / r + inject_Z (snd origin))%Q.

Definition adjust_keypoint (imgsz : Q) (image_height image_width : Z)
    (origin : Z * Z) (k : Keypoint) : Keypoint :=
  let '(x, y) := unletterbox imgsz image_height image_width origin (kx k, ky k) in
  {| kx := x; ky := y; kconf := kconf k |}.

(** *** YOLOv7-Pose *)

(** The output loop shared by the two YOLOv7 paths: keypoints are read from
    row [j] of [det], the score from row [j] of the reversed [det]. *)
Definition yolov7_outputs (imgsz : Q) (image_height image_width : Z)
    (origin : Z * Z) (det : list Detection) : list Pose * list Q :=
  (map (fun d => map (adjust_keypoint imgsz image_height image_width origin)
                     (det_kpts d)) det,
   map det_conf (rev det)).

Definition _detect_yolov7_pose (w : World) (est : PoseEstimator)
    (image : Image) : exc (list Pose * list Q) :=
  imgsz ← yolov7_imgsz w;
  det ← yolov7_infer w image;
  Val (yolov7_outputs imgsz (height image) (width image) (0, 0) det).

(** [PoseEstimator.detect_poses] *)
Definition PoseEstimator_detect_poses (w : World) (est : PoseEstimator)
    (image : Image) : exc (list Pose * list Q) :=
  if String.prefix "rtmpose" (model_name est) then _detect_rtmpose w est image
  else if bool_decide (model_name est = "yolov7_w6_pose"%string)
       then _detect_yolov7_pose w est image
  else if bool_decide (model_name est = KEYPOINTRCNN)
       then _detect_keypointrcnn w est image
  else _detect_keypointrcnn w est image.

(** ** DetectionReconciler: the box-guided paths *)

(** [x1, y1, x2, y2 = [int(coord) for coord in box]] followed by the clamp
    to the image bounds. *)
Definition clamp_box (image : Image) (box : Box) : Z * Z * Z * Z :=
  let '(bx1, by1, bx2, by2) := box in
  let x1 := py_int bx1 in
  let y1 := py_int by1 in
  let x2 := py_int bx2 in
  let y2 := py_int by2 in
  let x1 := Z.max 0 (Z.min x1 (width image - 1)) in
  let y1 := Z.max 0 (Z.min y1 (height image - 1)) in
  let x2 := Z.max 0 (Z.min x2 (width image - 1)) in
  let y2 := Z.max 0 (Z.min y2 (height image - 1)) in
  (x1, y1, x2, y2).

(** [x2 - x1 < 10 or y2 - y1 < 10] *)
Definition too_small (b : Z * Z * Z * Z) : bool :=
  let '(x1, y1, x2, y2) := b in
  (x2 - x1 <? 10) || (y2 - y1 <? 10).

(** [kpts[kpts[:, 2] < threshold, 2] = 0] *)
Definition mask_keypoints (threshold : Q) (kpts : Pose) : Pose :=
  map (fun k => if Qltb (kconf k) threshold
                then {| kx := kx k; ky := ky k; kconf := 0 |}
                else k) kpts.

(** [adjusted[:, 0] += x1; adjusted[:, 1] += y1] *)
Definition shift_keypoints (x1 y1 : Z) (kpts : Pose) : Pose :=
  map (fun k => {| kx := kx k + inject_Z x1;
                   ky := ky k + inject_Z y1;
                   kconf := kconf k |}) kpts.

(** Body of [for i, pred_box in enumerate(pred_boxes)]: the running
    [(best_iou, best_idx)]. *)
Definition iou_step (b : Z * Z * Z * Z) (best : Q * Z) (ip : nat * Box) : Q * Z :=
  let '(x1, y1, x2, y2) := b in
  let '(i, (px1, py1, px2, py2)) := ip in
  let ix1 := Qmaxq (inject_Z x1) px1 in
  let iy1 := Qmaxq (inject_Z y1) py1 in
  let ix2 := Qminq (inject_Z x2) px2 in
  let iy2 := Qminq (inject_Z y2) py2 in
  if Qgtb ix2 ix1 && Qgtb iy2 iy1 then
    let intersection := ((ix2 - ix1) * (iy2 - iy1))%Q in
    let box_area := inject_Z ((x2 - x1) * (y2 - y1)) in
    let pred_area := ((px2 - px1) * (py2 - py1))%Q in
    let union := (box_area + pred_area - intersection)%Q in
    let iou := (intersection / union)%Q in
    if Qgtb iou (fst best) then (iou, Z.of_nat i) else best
  else best.

(** The IoU search, from [best_iou = 0], [best_idx = -1]. *)
Definition best_match (b : Z * Z * Z * Z) (pred_boxes : list Box) : Q * Z :=
  fold_left (iou_step b) (enumerate pred_boxes) (0%Q, -1).

(** Inferences performed by the box-guided KeypointRCNN path, in order
    (bookkeeping only; the source keeps no such record). *)
Inductive Call : Type :=
| RegionInference (x1 y1 x2 y2 : Z)
| FullInference.

(** The loop [for box in boxes] of [_detect_keypointrcnn_from_boxes], with
    the two result lists as explicit state; the last component records the
    model calls made so far. *)
Fixpoint keypointrcnn_boxes_loop (w : World) (est : PoseEstimator)
    (image : Image) (boxes : list Box)
    (keypoints_list : list Pose) (scores_list : list Q) (calls : list Call)
    : exc (list Pose * list Q) * list Call :=
  match boxes with
  | [] => (Val (keypoints_list, scores_list), calls)
  | box :: rest =>
    let '(x1, y1, x2, y2) := clamp_box image box in
    if too_small (x1, y1, x2, y2) then
      keypointrcnn_boxes_loop w est image rest keypoints_list scores_list calls
    else
      let cropped_image := crop image y1 y2 x1 x2 in
      let calls := calls ++ [RegionInference x1 y1 x2 y2] in
      match keypointrcnn w (cvtColor_BGR2RGB cropped_image) with
      | Raise e => (Raise e, calls)
      | Val (inst :: _) =>
          (* first prediction of the crop *)
          let adjusted_keypoints := shift_keypoints x1 y1 (ikeypoints inst) in
          if Qgeb (iscore inst) (conf_threshold est) then
            keypointrcnn_boxes_loop w est image rest
              (keypoints_list
                 ++ [mask_keypoints (keypoint_threshold est) adjusted_keypoints])
              (scores_list ++ [iscore inst]) calls
          else
            keypointrcnn_boxes_loop w est image rest
              keypoints_list scores_list calls
      | Val [] =>
          if bool_decide (length keypoints_list = 0%nat) then
            (* predict on the whole image *)
            let calls := calls ++ [FullInference] in
            match keypointrcnn w (cvtColor_BGR2RGB image) with
            | Raise e => (Raise e, calls)
            | Val [] =>
                keypointrcnn_boxes_loop w est image rest
                  keypoints_list scores_list calls
            | Val full_predictions =>
                let '(best_iou, best_idx) :=
                  best_match (x1, y1, x2, y2) (map ibox full_predictions) in
                if (0 <=? best_idx) && Qgtb best_iou (3 # 10) then
                  match full_predictions !! Z.to_nat best_idx with
                  | Some inst =>
                      keypointrcnn_boxes_loop w est image rest
                        (keypoints_list
                           ++ [mask_keypoints (keypoint_threshold est)
                                 (ikeypoints inst)])
                        (scores_list ++ [iscore inst]) calls
                  | None => (Raise IndexError, calls)
                  end
                else
                  keypointrcnn_boxes_loop w est image rest
                    keypoints_list scores_list calls
            end
          else
            keypointrcnn_boxes_loop w est image rest
              keypoints_list scores_list calls
      end
  end.

Definition _detect_keypointrcnn_from_boxes (w : World) (est : PoseEstimator)
    (image : Image) (boxes : list Box) : exc (list Pose * list Q) :=
  try_except
    (fst (keypointrcnn_boxes_loop w est image boxes [] [] []))
    (fun _ => Val ([], [])).

(** The model calls made by one run of [_detect_keypointrcnn_from_boxes]. *)
Definition keypointrcnn_from_boxes_calls (w : World) (est : PoseEstimator)
    (image : Image) (boxes : list Box) : list Call :=
  snd (keypointrcnn_boxes_loop w est image boxes [] [] []).



(** [_detect_rtmpose_from_boxes]: instance score defaults to 1 when
    [pred_instances] has no [scores]. *)
Definition _detect_rtmpose_from_boxes (w : World) (est : PoseEstimator)
    (image : Image) (boxes : list Box) : exc (list Pose * list Q) :=
  pred_instances ← rtmpose_boxes w (cvtColor_BGR2RGB image) boxes;
  Val (map (fun inst => mask_keypoints (keypoint_threshold est)
                          (td_keypoints inst)) pred_instances,
       map (fun inst => default 1%Q (td_score inst)) pred_instances).

(** The loop [for box in boxes] of [_detect_yolov7_pose_from_boxes]. *)
Fixpoint yolov7_boxes_loop (w : World) (image : Image) (boxes : list Box)
    (keypoints_list : list Pose) (scores_list : list Q)
    : exc (list Pose * list Q) :=
  match boxes with
  | [] => Val (keypoints_list, scores_list)
  | box :: rest =>
    let '(x1, y1, x2, y2) := clamp_box image box in
    if too_small (x1, y1, x2, y2) then
      yolov7_boxes_loop w image rest keypoints_list scores_list
    else
      let cropped_image := crop image y1 y2 x1 x2 in
      imgsz ← yolov7_imgsz w;
      det ← yolov7_infer w cropped_image;
      let '(kpts, confs) :=
        yolov7_outputs imgsz (height cropped_image) (width cropped_image)
                       (x1, y1) det in
      yolov7_boxes_loop w image rest
        (keypoints_list ++ kpts) (scores_list ++ confs)
  end.

Definition _detect_yolov7_pose_from_boxes (w : World) (est : PoseEstimator)
    (image : Image) (boxes : list Box) : exc (list Pose * list Q) :=
  try_except (yolov7_boxes_loop w image boxes [] [])
             (fun _ => Val ([], [])).

(** [PoseEstimator.detect_poses_from_boxes] *)
Definition PoseEstimator_detect_poses_from_boxes (w : World)
    (est : PoseEstimator) (image : Image) (boxes : list Box)
    : exc (list Pose * list Q) :=
  if is_rtmpose est then _detect_rtmpose_from_boxes w est image boxes
  else if is_keypointrcnn est then _detect_keypointrcnn_from_boxes w est image boxes
  else _detect_yolov7_pose_from_boxes w est image boxes.

(** ** PoseEstimationFacade: the two module-level entry points *)

Definition detect_poses (w : World) (image : Image)
    (model_name device : option string)
    (conf_threshold keypoint_threshold : option Q)
    (advanced_params : option (gmap string Q))
    (start_group_id : Z) (draw_skeleton : option bool) : exc (list Shape) :=
  try_except
    (estimator ← PoseEstimator_init w model_name device conf_threshold
                   keypoint_threshold advanced_params draw_skeleton;
     '(keypoints, scores) ← PoseEstimator_detect_poses w estimator image;
     get_shapes_from_poses keypoints scores start_group_id draw_skeleton)
    (fun _ => Val []).

(** The group id handed to the projector by [estimate_poses]. *)
Definition first_box_id (existing_person_boxes_ids : option (list (option Z)))
    (start_group_id : Z) : Z :=
  match existing_person_boxes_ids with
  | Some (Some id :: _) => id
  | _ => start_group_id
  end.

Definition estimate_poses (w : World) (image : Image)
    (model_name : option string) (conf_threshold : option Q)
    (device : option string)
    (existing_person_boxes : option (list Box))
    (existing_person_boxes_ids : option (list (option Z)))
    (use_detection_results : option bool)
    (keypoint_threshold : option Q)
    (advanced_params : option (gmap string Q))
    (start_group_id : Z) (draw_skeleton : option bool) : exc (list Shape) :=
  try_except
    (estimator ← PoseEstimator_init w model_name device conf_threshold
                   keypoint_threshold advanced_params draw_skeleton;
     '(keypoints, scores) ←
        match existing_person_boxes with
        | Some (box :: boxes) =>
            if default true use_detection_results
            then PoseEstimator_detect_poses_from_boxes w estimator image
                   (box :: boxes)
            else Val ([], [])
        | _ => Val ([], [])
        end;
     '(keypoints, scores) ←
        (if bool_decide (length keypoints = 0%nat)
         then PoseEstimator_detect_poses w estimator image
         else Val (keypoints, scores));
     let group_id := first_box_id existing_person_boxes_ids start_group_id in
     get_shapes_from_poses keypoints scores group_id draw_skeleton)
    (fun _ => Val []).

(** * Specification vocabulary and concrete inputs *)

(** The point shape of a keypoint and the line shape of a skeleton edge. *)
Definition point_shape (group : Z) (name : string) (k : Keypoint) : Shape :=
  {| label := name; points := [ (kx k, ky k) ]; group_id := group;
     shape_type := point; flags := ∅ |}.

Definition line_shape (group : Z) (n1 n2 : string) (p1 p2 : Keypoint) : Shape :=
  {| label := limb_label n1 n2;
     points := [ (kx p1, ky p1); (kx p2, ky p2) ];
     group_id := group; shape_type := line; flags := ∅ |}.

(** The label [limb_<a>_<b>] of a skeleton edge. *)
Definition edge_label (e : nat * nat) : option string :=
  n1 ← COCO_KEYPOINTS !! e.1;
  n2 ← COCO_KEYPOINTS !! e.2;
  Some (limb_label n1 n2).

(** [s] is the point shape of joint [j] in group [group]. *)
Definition is_point_of (group : Z) (j : nat) (s : Shape) : Prop :=
  shape_type s = point /\ group_id s = group
  /\ COCO_KEYPOINTS !! j = Some (label s).

(** [s] is the line shape of skeleton edge [e] in group [group]. *)
Definition is_limb_of (group : Z) (e : nat * nat) (s : Shape) : Prop :=
  shape_type s = line /\ group_id s = group
  /\ edge_label e = Some (label s).

(** The shapes one pose contributes. *)
Definition pose_shape_spec (group : Z) (draw_skeleton : option bool)
    (kpts : Pose) (s : Shape) : Prop :=
  (exists j k name,
      kpts !! j = Some k /\ (0 < kconf k)%Q /\
      COCO_KEYPOINTS !! j = Some name /\ s = point_shape group name k)
  \/
  (truthy draw_skeleton = true /\
   exists a b p1 p2 n1 n2,
      (a, b) ∈ COCO_SKELETON /\
      kpts !! a = Some p1 /\ kpts !! b = Some p2 /\
      (0 < kconf p1)%Q /\ (0 < kconf p2)%Q /\
      COCO_KEYPOINTS !! a = Some n1 /\ COCO_KEYPOINTS !! b = Some n2 /\
      s = line_shape group n1 n2 p1 p2).

(** A pose whose nose has confidence 0 and whose other joints have
    confidence 0.01, projected with the skeleton under group id 7. *)
Definition faint_pose : Pose :=
  mkKpt 10 20 0 ::
  map (fun n => mkKpt (inject_Z n) (inject_Z (2 * n)) (1 # 100))
      [1; 2; 3; 4; 5; 6; 7; 8; 9; 10; 11; 12; 13; 14; 15; 16].

Definition faint_shapes : list Shape :=
  Eval vm_compute in
    match get_shapes_from_poses [faint_pose] [9 # 10]%Q 7 (Some true) with
    | Val shapes => shapes
    | Raise _ => []
    end.

Definition person_keypoints (conf : Q) : Pose :=
  map (fun n => mkKpt (inject_Z (10 * n)) (inject_Z (5 * n)) conf)
      [0; 1; 2; 3; 4; 5; 6; 7; 8; 9; 10; 11; 12; 13; 14; 15; 16].

Definition person : Instance :=
  {| ibox := (100, 50, 300, 400)%Q; iscore := 95 # 100;
     ikeypoints := person_keypoints 1 |}.

Definition empty_config : PoseConfig :=
  {| cfg_model_name := None; cfg_conf_threshold := None; cfg_device := None;
     cfg_keypoint_threshold := None; cfg_advanced := None;
     cfg_draw_skeleton := None |}.

Definition blank_image (h w : Z) : Image :=
  {| height := h; width := w; pixels := fun _ _ => (0, 0, 0) |}.

(** A world in which [model] is the loaded KeypointRCNN and the other
    backends are not installed. *)
Definition keypointrcnn_world (model : Image -> exc (list Instance)) : World :=
  {| HAS_TORCH := true;
     get_pose_estimation_config := Val empty_config;
     yolov7_importable := false;
     cuda_is_available := false;
     load_rtmpose_model := fun _ => Raise ImportError;
     load_keypointrcnn_model := fun _ => Val ();
     load_yolov7_pose_model := Raise ImportError;
     keypointrcnn := model;
     rtmpose_full := fun _ => Raise ImportError;
     rtmpose_boxes := fun _ _ => Raise ImportError;
     yolov7_imgsz := Raise AttributeError;
     yolov7_infer := fun _ => Raise AttributeError |}.

Definition one_person_world : World :=
  keypointrcnn_world (fun _ => Val [person]).

Definition two_boxes : list Box :=
  [ (100, 50, 300, 400)%Q; (350, 50, 600, 400)%Q ].

(** The visible-keypoint test of the full-image paths. *)
Definition enough_keypoints (est : PoseEstimator) (kpts : Pose) : Prop :=
  (dict_get (advanced_params est) "min_keypoints" 5
   <= inject_Z (visible_keypoints (keypoint_threshold est) kpts))%Q.

(** What the box-guided paths do instead: every kept keypoint has either
    confidence 0 or a confidence that reaches the keypoint threshold. *)
Definition masked (est : PoseEstimator) (kpts : Pose) : Prop :=
  Forall (fun k => kconf k = 0%Q \/ (keypoint_threshold est <= kconf k)%Q) kpts.

(** A detection with instance score 0.9 and only three keypoints above the
    keypoint threshold. *)
Definition sparse_person : Instance :=
  {| ibox := (100, 50, 300, 400)%Q; iscore := 9 # 10;
     ikeypoints :=
       map (fun n => mkKpt (inject_Z (10 * n)) (inject_Z (5 * n)) 1) [0; 1; 2]
       ++ map (fun n => mkKpt (inject_Z (10 * n)) (inject_Z (5 * n)) (1 # 10))
              [3; 4; 5; 6; 7; 8; 9; 10; 11; 12; 13; 14; 15; 16] |}.

Definition sparse_world : World :=
  keypointrcnn_world (fun _ => Val [sparse_person]).

Definition mixed_world : World :=
  keypointrcnn_world (fun _ => Val [sparse_person; person]).

(** The estimator built from the defaults. *)
Definition default_estimator : PoseEstimator :=
  {| model_name := KEYPOINTRCNN; conf_threshold := 1 # 2; device := "cpu";
     keypoint_threshold := 2 # 10; advanced_params := ∅;
     draw_skeleton := true; is_rtmpose := false; is_keypointrcnn := true |}.

Definition one_box : list Box := [ (100, 50, 300, 400)%Q ].

Definition mixed_full_result : list Pose * list Q :=
  Eval vm_compute in
    match _detect_keypointrcnn mixed_world default_estimator (blank_image 480 640) with
    | Val r => r
    | Raise _ => ([], [])
    end.

Definition sparse_box_result : list Pose * list Q :=
  Eval vm_compute in
    match _detect_keypointrcnn_from_boxes sparse_world default_estimator
            (blank_image 480 640) one_box with
    | Val r => r
    | Raise _ => ([], [])
    end.

(** The Intersection-over-Union of the clamped box [b] with a predicted box,
    as the matching loop computes it (0 when the boxes do not overlap). *)
Definition iou (b : Z * Z * Z * Z) (p : Box) : Q :=
  fst (iou_step b (0%Q, -1) (0%nat, p)).

(** A 200 x 200 image; the known box is [[0, 0, 100, 100]].  The model
    finds nothing in the crop and one person on the whole image, whose
    predicted box is [[0, 0, 100, hgt]]: IoU [hgt / 100] with the known box. *)
Definition overlap_person (hgt : Q) : Instance :=
  {| ibox := (0, 0, 100, hgt)%Q; iscore := 9 # 10;
     ikeypoints := person_keypoints 1 |}.

Definition fallback_world (hgt : Q) : World :=
  keypointrcnn_world
    (fun img => if height img =? 200 then Val [overlap_person hgt] else Val []).

Definition square_box : Box := (0, 0, 100, 100)%Q.

Definition left_box : Box := (0, 0, 100, 100)%Q.
Definition right_box : Box := (100, 0, 190, 100)%Q.

(** Nothing is found in any crop; the whole image holds one person far
    from both boxes. *)
Definition unmatched_world : World :=
  keypointrcnn_world
    (fun img =>
       if height img =? 200
       then Val [ {| ibox := (150, 150, 190, 190)%Q; iscore := 9 # 10;
                     ikeypoints := person_keypoints 1 |} ]
       else Val []).

(** A person is found in the crop of [left_box] (100 wide), nothing in the
    crop of [right_box] (90 wide); the whole image holds a person whose
    box coincides with [right_box]. *)
Definition right_only_on_full_world : World :=
  keypointrcnn_world
    (fun img =>
       if height img =? 200
       then Val [ {| ibox := right_box; iscore := 9 # 10;
                     ikeypoints := person_keypoints 1 |} ]
       else if width img =? 100 then Val [person] else Val []).



(** Letterboxing a point and mapping it back, as the YOLOv7 paths do. *)
Definition round_trip (h w target stride : Z) (origin : Z * Z) (p : Q * Q)
    : exc (Q * Q) :=
  lb ← _letterbox h w target stride;
  Val (unletterbox (inject_Z target) h w origin (letterbox_forward h w lb p)).

(** Number of keypoints of a pose that get a point shape. *)
Definition visible_points (kpts : Pose) : nat :=
  sum_list ((fun k => if Qgtb (kconf k) 0 then 1%nat else 0%nat) <$> kpts).

(** Whether a skeleton edge gets a line shape in a pose. *)
Definition limb_visible (kpts : Pose) (e : nat * nat) : bool :=
  match kpts !! e.1, kpts !! e.2 with
  | Some p1, Some p2 => Qgtb (kconf p1) 0 && Qgtb (kconf p2) 0
  | _, _ => false
  end.

(** Number of skeleton edges of a pose that get a line shape. *)
Definition visible_limbs (kpts : Pose) : nat :=
  sum_list ((fun e => if limb_visible kpts e then 1%nat else 0%nat)
              <$> COCO_SKELETON).

(** Number of shapes one pose contributes. *)
Definition shape_count (draw_skeleton : option bool) (kpts : Pose) : nat :=
  (visible_points kpts
   + if truthy draw_skeleton then visible_limbs kpts else 0)%nat.

(** The poses the projector can handle: no keypoint of positive confidence
    beyond the 17 named joints and, when the skeleton is requested, all 17
    joints present. *)
Definition projectable (draw_skeleton : option bool) (kpts : Pose) : Prop :=
  (forall j k, kpts !! j = Some k -> (0 < kconf k)%Q -> (j < 17)%nat)
  /\ (truthy draw_skeleton = true -> (17 <= length kpts)%nat).

(** Where a recorded region inference lies in the image: inside the
    bounds, at least 10 pixels wide and high. *)
Definition region_in_bounds (image : Image) (c : Call) : Prop :=
  match c with
  | RegionInference x1 y1 x2 y2 =>
      0 <= x1 /\ x1 + 10 <= x2 /\ x2 <= width image - 1
      /\ 0 <= y1 /\ y1 + 10 <= y2 /\ y2 <= height image - 1
  | FullInference => True
  end.

(** The instances of a whole-image KeypointRCNN prediction that pass the
    score mask and the visible-keypoint count, converted, in order. *)
Definition keypointrcnn_candidates (est : PoseEstimator)
    (predictions : list Instance) : list (Pose * Q) :=
  List.filter
    (fun ks : Pose * Q =>
       Qgeb (inject_Z (visible_keypoints (keypoint_threshold est) ks.1))
            (dict_get (advanced_params est) "min_keypoints" 5))
    (map (fun inst => (map convert_keypoint (ikeypoints inst), iscore inst))
         (List.filter (fun inst => Qgeb (iscore inst) (conf_threshold est))
                      predictions)).

(** A world whose KeypointRCNN fails on crops 90 pixels wide and finds one
    person everywhere else. *)
Definition failing_crop_world : World :=
  keypointrcnn_world
    (fun img => if width img =? 90 then Raise RuntimeError else Val [person]).



(** A world with MMPose installed whose whole-image inference returns one
    instance with [(x, y)] rows, as [pred_instances.keypoints] has them. *)
Definition xy_rows_world : World :=
  {| HAS_TORCH := true;
     get_pose_estimation_config := Val empty_config;
     yolov7_importable := false;
     cuda_is_available := false;
     load_rtmpose_model := fun _ => Val ();
     load_keypointrcnn_model := fun _ => Val ();
     load_yolov7_pose_model := Raise ImportError;
     keypointrcnn := fun _ => Val [];
     rtmpose_full := fun _ => Val ([ [ [10; 20]; [30; 40] ] ], [ 9 # 10 ])%Q;
     rtmpose_boxes := fun _ _ => Val [];
     yolov7_imgsz := Raise AttributeError;
     yolov7_infer := fun _ => Raise AttributeError |}.

(** A detection with three keypoints only, and an estimator that accepts
    poses with a single visible keypoint. *)
Definition short_person : Instance :=
  {| ibox := (100, 50, 300, 400)%Q; iscore := 9 # 10;
     ikeypoints := [ mkKpt 10 10 1; mkKpt 20 20 1; mkKpt 30 30 1 ] |}.

Definition short_world : World :=
  keypointrcnn_world (fun _ => Val [person; short_person]).

Definition lenient_estimator : PoseEstimator :=
  {| model_name := KEYPOINTRCNN; conf_threshold := 1 # 2; device := "cpu";
     keypoint_threshold := 2 # 10;
     advanced_params := {[ "min_keypoints"%string := 1%Q ]};
     draw_skeleton := true; is_rtmpose := false; is_keypointrcnn := true |}.

(** What the box-guided detection returns for [two_boxes] when the model
    finds [person] in every crop. *)
Definition two_boxes_result : list Pose * list Q :=
  Eval vm_compute in
    match PoseEstimator_detect_poses_from_boxes one_person_world
            default_estimator (blank_image 480 640) two_boxes with
    | Val r => r
    | Raise _ => ([], [])
    end.

(** The estimator [est] with [self.advanced_params] replaced. *)
Definition with_advanced_params (est : PoseEstimator) (adv : gmap string Q)
    : PoseEstimator :=
  {| model_name := model_name est; conf_threshold := conf_threshold est;
     device := device est; keypoint_threshold := keypoint_threshold est;
     advanced_params := adv; draw_skeleton := draw_skeleton est;
     is_rtmpose := is_rtmpose est; is_keypointrcnn := is_keypointrcnn est |}.

(** A pose as the box-guided KeypointRCNN path appends it: the keypoints of
    an instance the model predicted on some image, moved by a crop origin
    or left in place, with the low confidences set to 0. *)
Definition box_guided_pose (w : World) (est : PoseEstimator) (kpts : Pose)
    : Prop :=
  exists img insts inst,
    keypointrcnn w img = Val insts /\ inst ∈ insts
    /\ (kpts = mask_keypoints (keypoint_threshold est) (ikeypoints inst)
        \/ exists x1 y1,
             kpts = mask_keypoints (keypoint_threshold est)
                      (shift_keypoints x1 y1 (ikeypoints inst))).

(** The pose the box-guided KeypointRCNN path appends for [sparse_person]
    found in the crop of [one_box]. *)
Definition sparse_box_pose : Pose :=
  mask_keypoints (keypoint_threshold default_estimator)
    (shift_keypoints 100 50 (ikeypoints sparse_person)).

(** Modelled from the spec: the Intersection-over-Union of two boxes, the
    area of their overlap over the area of their union (0 when they do not
    overlap). *)
Definition intersection_over_union (a b : Box) : Q :=
  let '(ax1, ay1, ax2, ay2) := a in
  let '(bx1, by1, bx2, by2) := b in
  let iw := (Qminq ax2 bx2 - Qmaxq ax1 bx1)%Q in
  let ih := (Qminq ay2 by2 - Qmaxq ay1 by1)%Q in
  if Qgtb iw 0 && Qgtb ih 0 then
    (iw * ih
     / ((ax2 - ax1) * (ay2 - ay1) + (bx2 - bx1) * (by2 - by1) - iw * ih))%Q
  else 0%Q.

(** A 200 x 200 image; the known box [[0, 0, 200, 100]] reaches the right
    border.  The model finds nothing in the crop and one person on the
    whole image, whose predicted box is [[0, 0, 200, 30.01]]. *)
Definition border_box : Box := (0, 0, 200, 100)%Q.

Definition border_person : Instance :=
  {| ibox := (0, 0, 200, 3001 # 100)%Q; iscore := 9 # 10;
     ikeypoints := person_keypoints 1 |}.

Definition border_world : World :=
  keypointrcnn_world
    (fun img => if height img =? 200 then Val [border_person] else Val []).

(** A detection whose keypoints carry the visibilities 0, 1, 2 in turn. *)
Definition graded_person : Instance :=
  {| ibox := (100, 50, 300, 400)%Q; iscore := 9 # 10;
     ikeypoints :=
       map (fun n => mkKpt (inject_Z (10 * n)) (inject_Z (5 * n))
                           (inject_Z (n mod 3)))
           [0; 1; 2; 3; 4; 5; 6; 7; 8; 9; 10; 11; 12; 13; 14; 15; 16] |}.

Definition graded_world : World :=
  keypointrcnn_world (fun _ => Val [graded_person]).

Definition graded_full_result : list Pose * list Q :=
  Eval vm_compute in
    match _detect_keypointrcnn graded_world default_estimator
            (blank_image 480 640) with
    | Val r => r
    | Raise _ => ([], [])
    end.

Definition graded_box_result : list Pose * list Q :=
  Eval vm_compute in
    match _detect_keypointrcnn_from_boxes graded_world default_estimator
            (blank_image 480 640) one_box with
    | Val r => r
    | Raise _ => ([], [])
    end.

(** The remap of the full-image KeypointRCNN path, keypoint by keypoint:
    [k'] is what the path returns for the predicted keypoint [k]. *)
Definition remapped (k' k : Keypoint) : Prop :=
  kx k' = kx k /\ ky k' = ky k
  /\ ((0 < kconf k)%Q -> (kconf k' == kconf k / 2)%Q)
  /\ ((kconf k <= 0)%Q -> (kconf k' == 0)%Q)
  /\ ((kconf k == 0)%Q -> (kconf k' == 0)%Q)
  /\ ((kconf k == 1)%Q -> (kconf k' == 1 # 2)%Q)
  /\ ((kconf k == 2)%Q -> (kconf k' == 1)%Q).

(** What the box-guided KeypointRCNN path does to the third component: it
    is returned as predicted, or as 0 when below the keypoint threshold. *)
Definition raw_or_zero (threshold : Q) (k : Keypoint) : Q :=
  if Qltb (kconf k) threshold then 0%Q else kconf k.

(** * Properties *)

(** ** Comparison helpers *)

Lemma Qgtb_true (a b : Q) : Qgtb a b = true <-> (b < a)%Q.
Proof.
  unfold Qgtb. rewrite negb_true_iff.
  destruct (Qle_bool a b) eqn:E.
  - apply Qle_bool_iff in E. split; [discriminate | intros H; exfalso; lra].
  - split; [intros _ | reflexivity].
    apply Qnot_le_lt. intros H. apply Qle_bool_iff in H. congruence.
Qed.

Lemma Qgtb_false (a b : Q) : Qgtb a b = false <-> (a <= b)%Q.
Proof.
  unfold Qgtb. rewrite negb_false_iff. apply Qle_bool_iff.
Qed.

Lemma Qgeb_true (a b : Q) : Qgeb a b = true <-> (b <= a)%Q.
Proof. unfold Qgeb. apply Qle_bool_iff. Qed.

Lemma Qltb_true (a b : Q) : Qltb a b = true <-> (a < b)%Q.
Proof. unfold Qltb. apply (Qgtb_true b a). Qed.

Lemma Qltb_false (a b : Q) : Qltb a b = false <-> (b <= a)%Q.
Proof. unfold Qltb. apply (Qgtb_false b a). Qed.

(** Reduce the monadic bind of [exc] on a known outcome. *)
Ltac exc_simpl := cbn [mbind exc_bind mret exc_ret andb].
Tactic Notation "exc_simpl" "in" hyp(H) :=
  cbn [mbind exc_bind mret exc_ret andb] in H.

(** ** Loops over lists *)

Lemma exc_mapM_Val {A B} (f : A -> exc B) (l : list A) (r : list B) :
  exc_mapM f l = Val r <-> Forall2 (fun a b => f a = Val b) l r.
Proof.
  revert r. induction l as [|a l IH]; intros r; simpl.
  - split.
    + intros [= <-]. constructor.
    + intros H. inversion H. reflexivity.
  - destruct (f a) as [b|e] eqn:Ha.
    + destruct (exc_mapM f l) as [bs|e] eqn:Hl.
      * split.
        -- intros [= <-]. constructor; [assumption | by apply IH].
        -- intros H. inversion H as [|? b' ? bs' Hb Hbs]; subst.
           apply IH in Hbs. congruence.
      * split; [discriminate |].
        intros H. inversion H as [|? b' ? bs' Hb Hbs]; subst.
        apply IH in Hbs. discriminate.
    + split; [discriminate |].
      intros H. inversion H; subst. congruence.
Qed.

(** A loop whose body never raises returns. *)
Lemma exc_mapM_total {A B} (f : A -> exc B) (l : list A) :
  Forall (fun a => exists b, f a = Val b) l ->
  exists r, exc_mapM f l = Val r.
Proof.
  induction 1 as [|a l [b Hb] _ [r Hr]]; simpl.
  - by exists [].
  - rewrite Hb, Hr. by eexists.
Qed.

(** A loop that returned ran its body successfully on every element. *)
Lemma exc_mapM_elem {A B} (f : A -> exc B) (l : list A) (r : list B) (a : A) :
  exc_mapM f l = Val r -> a ∈ l -> exists b, b ∈ r /\ f a = Val b.
Proof.
  rewrite exc_mapM_Val. induction 1 as [|a' b l r Ha _ IH]; intros Hin.
  - inversion Hin.
  - apply elem_of_cons in Hin as [-> | Hin].
    + exists b. split; [left | done].
    + destruct (IH Hin) as (b' & ? & ?). exists b'. split; [by right | done].
Qed.

(** What a loop that appends per-element shape lists has collected. *)
Lemma exc_mapM_concat_elem {A B} (f : A -> exc (list B)) l r (s : B) :
  exc_mapM f l = Val r ->
  s ∈ concat r <-> exists a bs, a ∈ l /\ f a = Val bs /\ s ∈ bs.
Proof.
  rewrite exc_mapM_Val. induction 1 as [|a bs l r Ha _ IH]; simpl.
  - split; [intros H; inversion H | intros (a & bs & H & _); inversion H].
  - rewrite elem_of_app, IH. split.
    + intros [Hs | (a' & bs' & Hin & Hf & Hs)].
      * exists a, bs. split_and!; [left | done | done].
      * exists a', bs'. split_and!; [by right | done | done].
    + intros (a' & bs' & Hin & Hf & Hs).
      apply elem_of_cons in Hin as [-> | Hin].
      * left. congruence.
      * right. eauto.
Qed.

Lemma enumerate_lookup {A} (l : list A) (i : nat) :
  enumerate l !! i = (fun a => (i, a)) <$> l !! i.
Proof.
  unfold enumerate. rewrite lookup_zip_with.
  destruct (l !! i) as [a|] eqn:Hl; simpl.
  - rewrite lookup_seq_lt by (by eapply lookup_lt_Some). reflexivity.
  - rewrite lookup_seq_ge by (by apply lookup_ge_None). reflexivity.
Qed.

Lemma elem_of_enumerate {A} (l : list A) (i : nat) (a : A) :
  (i, a) ∈ enumerate l <-> l !! i = Some a.
Proof.
  rewrite list_elem_of_lookup. split.
  - intros [n Hn]. rewrite enumerate_lookup in Hn.
    destruct (l !! n) as [a'|] eqn:Hl; simpl in Hn; [|discriminate].
    by injection Hn as <- <-.
  - intros Hl. exists i. rewrite enumerate_lookup, Hl. reflexivity.
Qed.

(** ** ShapeProjector *)

Lemma keypoint_shapes_elem group j k bs s :
  keypoint_shapes group (j, k) = Val bs ->
  s ∈ bs <->
  (0 < kconf k)%Q /\
  exists name, COCO_KEYPOINTS !! j = Some name /\ s = point_shape group name k.
Proof.
  unfold keypoint_shapes, index.
  destruct (Qgtb (kconf k) 0) eqn:Hc.
  - apply Qgtb_true in Hc.
    destruct (COCO_KEYPOINTS !! j) as [name|]; exc_simpl; [|discriminate].
    intros [= <-]. rewrite list_elem_of_singleton. split.
    + intros ->. split; [done | by exists name].
    + by intros (_ & name' & [= <-] & ->).
  - apply Qgtb_false in Hc. intros [= <-]. split.
    + intros H. inversion H.
    + intros [H _]. exfalso. lra.
Qed.

Lemma limb_shapes_elem kpts group a b bs s :
  limb_shapes kpts group (a, b) = Val bs ->
  s ∈ bs <->
  exists p1 p2 n1 n2,
    kpts !! a = Some p1 /\ kpts !! b = Some p2 /\
    (0 < kconf p1)%Q /\ (0 < kconf p2)%Q /\
    COCO_KEYPOINTS !! a = Some n1 /\ COCO_KEYPOINTS !! b = Some n2 /\
    s = line_shape group n1 n2 p1 p2.
Proof.
  unfold limb_shapes, index.
  destruct (kpts !! a) as [p1|]; exc_simpl; [|discriminate].
  destruct (kpts !! b) as [p2|]; exc_simpl; [|discriminate].
  destruct (Qgtb (kconf p1) 0) eqn:H1; exc_simpl.
  - destruct (Qgtb (kconf p2) 0) eqn:H2; exc_simpl.
    + apply Qgtb_true in H1, H2.
      destruct (COCO_KEYPOINTS !! a) as [n1|]; exc_simpl; [|discriminate].
      destruct (COCO_KEYPOINTS !! b) as [n2|]; exc_simpl; [|discriminate].
      intros [= <-]. rewrite list_elem_of_singleton. split.
      * intros ->. by exists p1, p2, n1, n2.
      * by intros (? & ? & ? & ? & [= <-] & [= <-] & _ & _ & [= <-] & [= <-] & ->).
    + apply Qgtb_false in H2. intros [= <-]. split.
      * intros H. inversion H.
      * intros (? & ? & ? & ? & _ & [= <-] & _ & H & _). exfalso. lra.
  - apply Qgtb_false in H1. intros [= <-]. split.
    + intros H. inversion H.
    + intros (? & ? & ? & ? & [= <-] & _ & H & _). exfalso. lra.
Qed.

Lemma pose_shapes_elem start ds i kpts bs s :
  pose_shapes start ds (i, kpts) = Val bs ->
  s ∈ bs <-> pose_shape_spec (start + Z.of_nat i) ds kpts s.
Proof.
  unfold pose_shapes, pose_shape_spec. cbv zeta.
  destruct (exc_mapM _ (enumerate kpts)) as [pts|] eqn:Hpts; exc_simpl; [|discriminate].
  destruct (truthy ds) eqn:Hds.
  - destruct (exc_mapM (limb_shapes kpts (start + Z.of_nat i)) COCO_SKELETON) as [limbs|] eqn:Hl; exc_simpl; [|discriminate].
    intros [= <-]. rewrite elem_of_app.
    rewrite (exc_mapM_concat_elem _ _ _ _ Hpts), (exc_mapM_concat_elem _ _ _ _ Hl).
    split.
    + intros [([j k] & bs & Hin & Hf & Hs) | ([a b] & bs & Hin & Hf & Hs)].
      * left. apply elem_of_enumerate in Hin.
        apply (keypoint_shapes_elem _ _ _ _ s) in Hf.
        apply Hf in Hs as (Hc & name & Hn & ->). by exists j, k, name.
      * right. split; [done |].
        apply (limb_shapes_elem _ _ _ _ _ s) in Hf.
        apply Hf in Hs as (p1 & p2 & n1 & n2 & Hs). exists a, b, p1, p2, n1, n2.
        by split.
    + intros [(j & k & name & Hk & Hc & Hn & ->)
             | (_ & a & b & p1 & p2 & n1 & n2 & Hin & Hs)].
      * left.
        apply elem_of_enumerate in Hk.
        destruct (exc_mapM_elem _ _ _ _ Hpts Hk) as (bs & _ & Hf).
        exists (j, k), bs. split_and!; [done | done |].
        apply (keypoint_shapes_elem _ _ _ _ _ Hf). split; [done | by exists name].
      * right.
        destruct (exc_mapM_elem _ _ _ _ Hl Hin) as (bs & _ & Hf).
        exists (a, b), bs. split_and!; [done | done |].
        apply (limb_shapes_elem _ _ _ _ _ _ Hf). by exists p1, p2, n1, n2.
  - exc_simpl. intros [= <-]. rewrite app_nil_r.
    rewrite (exc_mapM_concat_elem _ _ _ _ Hpts). split.
    + intros ([j k] & bs & Hin & Hf & Hs).
      left. apply elem_of_enumerate in Hin.
      apply (keypoint_shapes_elem _ _ _ _ s) in Hf.
      apply Hf in Hs as (Hc & name & Hn & ->). by exists j, k, name.
    + intros [(j & k & name & Hk & Hc & Hn & ->) | (? & _)]; [|discriminate].
      apply elem_of_enumerate in Hk.
      destruct (exc_mapM_elem _ _ _ _ Hpts Hk) as (bs & _ & Hf).
      exists (j, k), bs. split_and!; [done | done |].
      apply (keypoint_shapes_elem _ _ _ _ _ Hf). split; [done | by exists name].
Qed.

(** The returned list holds exactly the shapes of every pose [i], under
    group id [start_group_id + i]. *)
Lemma get_shapes_from_poses_elem keypoints scores start ds shapes s :
  get_shapes_from_poses keypoints scores start ds = Val shapes ->
  s ∈ shapes <->
  exists i kpts, keypoints !! i = Some kpts
                 /\ pose_shape_spec (start + Z.of_nat i) ds kpts s.
Proof.
  unfold get_shapes_from_poses.
  destruct (exc_mapM _ (enumerate keypoints)) as [per_pose|] eqn:Hp; simpl;
    [|discriminate].
  intros [= <-]. rewrite (exc_mapM_concat_elem _ _ _ _ Hp). split.
  - intros ([i kpts] & bs & Hin & Hf & Hs).
    apply elem_of_enumerate in Hin. exists i, kpts. split; [done |].
    by apply (pose_shapes_elem _ _ _ _ _ _ Hf).
  - intros (i & kpts & Hk & Hs).
    apply elem_of_enumerate in Hk.
    destruct (exc_mapM_elem _ _ _ _ Hp Hk) as (bs & _ & Hf).
    exists (i, kpts), bs. split_and!; [done | done |].
    by apply (pose_shapes_elem _ _ _ _ _ _ Hf).
Qed.

Lemma COCO_KEYPOINTS_NoDup : NoDup COCO_KEYPOINTS.
Proof. apply (bool_decide_unpack _). by vm_compute. Qed.

Lemma COCO_KEYPOINTS_inj j j' name :
  COCO_KEYPOINTS !! j = Some name -> COCO_KEYPOINTS !! j' = Some name -> j = j'.
Proof. apply NoDup_lookup, COCO_KEYPOINTS_NoDup. Qed.

Lemma skeleton_labels_NoDup : NoDup (edge_label <$> COCO_SKELETON).
Proof. apply (bool_decide_unpack _). by vm_compute. Qed.

(** Distinct skeleton edges carry distinct labels. *)
Lemma edge_label_inj e e' l :
  e ∈ COCO_SKELETON -> e' ∈ COCO_SKELETON ->
  edge_label e = Some l -> edge_label e' = Some l -> e = e'.
Proof.
  intros [n Hn]%list_elem_of_lookup [n' Hn']%list_elem_of_lookup He He'.
  assert (n = n') as <-.
  { apply (NoDup_lookup _ _ _ (Some l) skeleton_labels_NoDup);
      rewrite list_lookup_fmap; [rewrite Hn | rewrite Hn']; simpl; congruence. }
  congruence.
Qed.

(** Every joint index of the skeleton is below 17. *)
Lemma COCO_SKELETON_bound :
  Forall (fun e : nat * nat => (e.1 < 17)%nat /\ (e.2 < 17)%nat) COCO_SKELETON.
Proof. apply (bool_decide_unpack _). by vm_compute. Qed.

(** On poses of 17 keypoints the projector raises nothing. *)
Lemma get_shapes_from_poses_total keypoints scores start ds :
  Forall (fun kpts : Pose => length kpts = 17%nat) keypoints ->
  exists shapes, get_shapes_from_poses keypoints scores start ds = Val shapes.
Proof.
  intros Hlen. unfold get_shapes_from_poses.
  destruct (exc_mapM_total (pose_shapes start ds) (enumerate keypoints))
    as [per_pose ->]; [| by eexists].
  apply Forall_forall. intros [i kpts] Hin%elem_of_enumerate.
  assert (Hk : length kpts = 17%nat).
  { eapply (proj1 (Forall_forall _ _) Hlen), list_elem_of_lookup_2, Hin. }
  unfold pose_shapes. cbv zeta.
  destruct (exc_mapM_total (keypoint_shapes (start + Z.of_nat i)) (enumerate kpts))
    as [pts ->].
  { apply Forall_forall. intros [j k] Hj%elem_of_enumerate.
    unfold keypoint_shapes, index.
    destruct (Qgtb (kconf k) 0); [| by eexists].
    apply lookup_lt_Some in Hj.
    destruct (lookup_lt_is_Some_2 COCO_KEYPOINTS j) as [name ->];
      [change (length COCO_KEYPOINTS) with 17%nat; lia |].
    by eexists. }
  exc_simpl. destruct (truthy ds); [| by eexists].
  destruct (exc_mapM_total (limb_shapes kpts (start + Z.of_nat i)) COCO_SKELETON)
    as [limbs ->]; [| by eexists].
  eapply Forall_impl; [apply COCO_SKELETON_bound |].
  intros [a b] [Ha Hb]. simpl in Ha, Hb. unfold limb_shapes, index.
  destruct (lookup_lt_is_Some_2 kpts a) as [p1 ->]; [lia |].
  destruct (lookup_lt_is_Some_2 kpts b) as [p2 ->]; [lia |].
  destruct (lookup_lt_is_Some_2 COCO_KEYPOINTS a) as [n1 ->];
    [change (length COCO_KEYPOINTS) with 17%nat; lia |].
  destruct (lookup_lt_is_Some_2 COCO_KEYPOINTS b) as [n2 ->];
    [change (length COCO_KEYPOINTS) with 17%nat; lia |].
  exc_simpl. destruct (_ && _); by eexists.
Qed.

(** C4. Projection omission: in the shapes returned by
    [get_shapes_from_poses], a keypoint [j] of pose [i] whose confidence is
    exactly 0 has no point shape, and no skeleton edge incident to [j] has a
    line shape in that pose's group; a keypoint whose confidence is strictly
    positive (however small) has its point shape in the result. *)
Theorem projection_omission keypoints scores start ds shapes i kpts j k :
  get_shapes_from_poses keypoints scores start ds = Val shapes ->
  keypoints !! i = Some kpts ->
  kpts !! j = Some k ->
  ((kconf k == 0)%Q ->
     (forall s, s ∈ shapes -> ~ is_point_of (start + Z.of_nat i) j s) /\
     (forall e s, e ∈ COCO_SKELETON -> e.1 = j \/ e.2 = j ->
                  s ∈ shapes -> ~ is_limb_of (start + Z.of_nat i) e s))
  /\
  ((0 < kconf k)%Q ->
     exists name, COCO_KEYPOINTS !! j = Some name /\
                  point_shape (start + Z.of_nat i) name k ∈ shapes).
Proof.
  intros Hrun Hi Hj. split.
  - intros Hzero. split.
    + intros s Hs (Hty & Hg & Hlab).
      apply (get_shapes_from_poses_elem _ _ _ _ _ _ Hrun) in Hs
        as (i' & kpts' & Hi' & [(j' & k' & name & Hk' & Hc & Hn & ->) | (_ & Hl)]).
      * simpl in Hg, Hlab.
        assert (i' = i) as -> by lia. assert (kpts' = kpts) as -> by congruence.
        assert (j' = j) as -> by (eapply COCO_KEYPOINTS_inj; eauto).
        assert (k' = k) as -> by congruence. lra.
      * destruct Hl as (? & ? & ? & ? & ? & ? & _ & _ & _ & _ & _ & _ & _ & ->).
        discriminate.
    + intros e s He Hinc Hs (Hty & Hg & Hlab).
      apply (get_shapes_from_poses_elem _ _ _ _ _ _ Hrun) in Hs
        as (i' & kpts' & Hi' & [(? & ? & ? & _ & _ & _ & ->) | (_ & Hl)]);
        [discriminate |].
      destruct Hl as (a & b & p1 & p2 & n1 & n2 & Hab & Ha & Hb & H1 & H2 & Hn1 & Hn2 & ->).
      simpl in Hg, Hlab.
      assert (i' = i) as -> by lia. assert (kpts' = kpts) as -> by congruence.
      assert (e = (a, b)) as ->.
      { eapply edge_label_inj; eauto.
        unfold edge_label. simpl. rewrite Hn1, Hn2. reflexivity. }
      simpl in Hinc. destruct Hinc as [-> | ->].
      * assert (p1 = k) as -> by congruence. lra.
      * assert (p2 = k) as -> by congruence. lra.
  - intros Hpos.
    assert (exists name, COCO_KEYPOINTS !! j = Some name) as [name Hname].
    { unfold get_shapes_from_poses in Hrun.
      destruct (exc_mapM _ (enumerate keypoints)) as [per_pose|] eqn:Hp;
        [|discriminate].
      apply elem_of_enumerate in Hi.
      destruct (exc_mapM_elem _ _ _ _ Hp Hi) as (bs & _ & Hf).
      unfold pose_shapes in Hf. cbv zeta in Hf.
      destruct (exc_mapM _ (enumerate kpts)) as [pts|] eqn:Hpts; [|discriminate].
      apply elem_of_enumerate in Hj.
      destruct (exc_mapM_elem _ _ _ _ Hpts Hj) as (b & _ & Hb).
      unfold keypoint_shapes, index in Hb.
      rewrite (proj2 (Qgtb_true _ _) Hpos) in Hb.
      destruct (COCO_KEYPOINTS !! j) as [name|]; [by exists name | discriminate]. }
    exists name. split; [done |].
    apply (get_shapes_from_poses_elem _ _ _ _ _ _ Hrun).
    exists i, kpts. split; [done |]. left. by exists j, k, name.
Qed.

Lemma faint_run :
  get_shapes_from_poses [faint_pose] [9 # 10]%Q 7 (Some true) = Val faint_shapes.
Proof. vm_compute. reflexivity. Qed.

Lemma projection_omission_witness :
  ((forall s, s ∈ faint_shapes -> ~ is_point_of 7 0 s) /\
   (forall e s, e ∈ COCO_SKELETON -> e.1 = 0%nat \/ e.2 = 0%nat ->
                s ∈ faint_shapes -> ~ is_limb_of 7 e s)) /\
  (exists name, COCO_KEYPOINTS !! 1%nat = Some name /\
                point_shape 7 name (mkKpt 1 2 (1 # 100)) ∈ faint_shapes).
Proof.
  split.
  - apply (projection_omission [faint_pose] [9 # 10]%Q 7 (Some true)
             faint_shapes 0 faint_pose 0 (mkKpt 10 20 0)
             faint_run eq_refl eq_refl).
    reflexivity.
  - apply (projection_omission [faint_pose] [9 # 10]%Q 7 (Some true)
             faint_shapes 0 faint_pose 1 (mkKpt 1 2 (1 # 100))
             faint_run eq_refl eq_refl).
    reflexivity.
Defined.

Example faint_shapes_count :
  length (List.filter (fun s => bool_decide (shape_type s = point)) faint_shapes) = 16%nat
  /\ length (List.filter (fun s => bool_decide (shape_type s = line)) faint_shapes) = 14%nat.
Proof. split; vm_compute; reflexivity. Qed.

(** ** PoseEstimationFacade *)

(** Each entry point returns either the empty list (some stage raised and
    the handler ran) or the projection of the poses it detected. *)
Lemma detect_poses_cases w image mn dev ct kt adv start ds :
  detect_poses w image mn dev ct kt adv start ds = Val []
  \/ exists est keypoints scores shapes,
       PoseEstimator_init w mn dev ct kt adv ds = Val est
       /\ PoseEstimator_detect_poses w est image = Val (keypoints, scores)
       /\ get_shapes_from_poses keypoints scores start ds = Val shapes
       /\ detect_poses w image mn dev ct kt adv start ds = Val shapes.
Proof.
  unfold detect_poses.
  destruct (PoseEstimator_init w mn dev ct kt adv ds) as [est|e] eqn:Hinit;
    exc_simpl; [| by left].
  destruct (PoseEstimator_detect_poses w est image) as [[keypoints scores]|e]
    eqn:Hdet; exc_simpl; [| by left].
  destruct (get_shapes_from_poses keypoints scores start ds) as [shapes|e]
    eqn:Hshapes; exc_simpl; [| by left].
  right. by exists est, keypoints, scores, shapes.
Qed.

Lemma estimate_poses_cases w image mn ct dev boxes ids use kt adv start ds :
  estimate_poses w image mn ct dev boxes ids use kt adv start ds = Val []
  \/ exists est keypoints scores shapes,
       PoseEstimator_init w mn dev ct kt adv ds = Val est
       /\ get_shapes_from_poses keypoints scores (first_box_id ids start) ds
          = Val shapes
       /\ estimate_poses w image mn ct dev boxes ids use kt adv start ds
          = Val shapes.
Proof.
  unfold estimate_poses.
  destruct (PoseEstimator_init w mn dev ct kt adv ds) as [est|e] eqn:Hinit;
    exc_simpl; [| by left].
  match goal with
  | |- context [mbind _ ?m] =>
      match type of m with
      | exc (list Pose * list Q) => destruct m as [[keypoints scores]|e] eqn:Hbox
      end
  end; exc_simpl; [| by left].
  match goal with
  | |- context [mbind _ ?m] =>
      match type of m with
      | exc (list Pose * list Q) => destruct m as [[keypoints' scores']|e] eqn:Hdet
      end
  end; exc_simpl; [| by left].
  destruct (get_shapes_from_poses keypoints' scores' (first_box_id ids start) ds)
    as [shapes|e] eqn:Hshapes; exc_simpl; [| by left].
  right. by exists est, keypoints', scores', shapes.
Qed.

(** C2. No exception escapes the two public entry points: for every world
    (whatever is installed, whichever loader or inference call raises) and
    every argument, [detect_poses] and [estimate_poses] return a shape
    list, and that list is empty unless the estimator was constructed and
    the returned list is the projection of detected poses. *)
Theorem no_exception_escapes w image mn ct dev boxes ids use kt adv start ds :
  (exists shapes,
      detect_poses w image mn dev ct kt adv start ds = Val shapes
      /\ (shapes = []
          \/ exists est keypoints scores,
               PoseEstimator_init w mn dev ct kt adv ds = Val est
               /\ PoseEstimator_detect_poses w est image = Val (keypoints, scores)
               /\ get_shapes_from_poses keypoints scores start ds = Val shapes))
  /\
  (exists shapes,
      estimate_poses w image mn ct dev boxes ids use kt adv start ds = Val shapes
      /\ (shapes = []
          \/ exists est keypoints scores,
               PoseEstimator_init w mn dev ct kt adv ds = Val est
               /\ get_shapes_from_poses keypoints scores
                    (first_box_id ids start) ds = Val shapes)).
Proof.
  split.
  - destruct (detect_poses_cases w image mn dev ct kt adv start ds)
      as [-> | (est & keypoints & scores & shapes & Hi & Hd & Hs & ->)].
    + exists []. split; [done | by left].
    + exists shapes. split; [done |]. right. by exists est, keypoints, scores.
  - destruct (estimate_poses_cases w image mn ct dev boxes ids use kt adv start ds)
      as [-> | (est & keypoints & scores & shapes & Hi & Hs & ->)].
    + exists []. split; [done | by left].
    + exists shapes. split; [done |]. right. by exists est, keypoints, scores.
Qed.

(** Failure modes behind C2: without torch, or when the model loader
    raises, the estimator is not constructed and both entry points return
    the empty list. *)
Lemma init_failure_returns_empty w image mn ct dev boxes ids use kt adv start ds e :
  PoseEstimator_init w mn dev ct kt adv ds = Raise e ->
  detect_poses w image mn dev ct kt adv start ds = Val []
  /\ estimate_poses w image mn ct dev boxes ids use kt adv start ds = Val [].
Proof.
  intros H. unfold detect_poses, estimate_poses. rewrite H. by exc_simpl.
Qed.

Lemma missing_torch_init w mn dev ct kt adv ds :
  HAS_TORCH w = false ->
  PoseEstimator_init w mn dev ct kt adv ds = Raise ImportError.
Proof. intros H. unfold PoseEstimator_init. by rewrite H. Qed.

(** An inference exception on the full-image KeypointRCNN path reaches the
    entry point's handler. *)
Lemma inference_failure_returns_empty w image mn dev ct kt adv start ds est e :
  PoseEstimator_init w mn dev ct kt adv ds = Val est ->
  PoseEstimator_detect_poses w est image = Raise e ->
  detect_poses w image mn dev ct kt adv start ds = Val [].
Proof.
  intros Hi Hd. unfold detect_poses. rewrite Hi. exc_simpl. rewrite Hd.
  by exc_simpl.
Qed.

(** The box-guided KeypointRCNN and YOLOv7 paths and the full-image RTMPose
    path have a handler of their own. *)
Lemma guarded_paths_never_raise w est image boxes :
  (exists r, _detect_keypointrcnn_from_boxes w est image boxes = Val r)
  /\ (exists r, _detect_yolov7_pose_from_boxes w est image boxes = Val r)
  /\ (exists r, _detect_rtmpose w est image = Val r).
Proof.
  unfold _detect_keypointrcnn_from_boxes, _detect_yolov7_pose_from_boxes,
    _detect_rtmpose, try_except.
  split_and!.
  - destruct (fst _); by eexists.
  - destruct (yolov7_boxes_loop _ _ _ _ _); by eexists.
  - match goal with |- context [match ?m with _ => _ end] => destruct m end;
      by eexists.
Qed.

Lemma pose_shape_spec_group group ds kpts s :
  pose_shape_spec group ds kpts s -> group_id s = group.
Proof.
  intros [(? & ? & ? & _ & _ & _ & ->)
         | (_ & ? & ? & ? & ? & ? & ? & _ & _ & _ & _ & _ & _ & _ & ->)];
    reflexivity.
Qed.

Lemma pose_shape_spec_no_skeleton group ds kpts s :
  truthy ds = false -> pose_shape_spec group ds kpts s -> shape_type s = point.
Proof.
  intros Hds [(? & ? & ? & _ & _ & _ & ->) | (Ht & _)]; [reflexivity | congruence].
Qed.

Lemma get_shapes_no_skeleton keypoints scores start ds shapes s :
  truthy ds = false ->
  get_shapes_from_poses keypoints scores start ds = Val shapes ->
  s ∈ shapes -> shape_type s = point.
Proof.
  intros Hds Hrun Hs.
  apply (get_shapes_from_poses_elem _ _ _ _ _ _ Hrun) in Hs as (i & kpts & _ & Hs).
  by eapply pose_shape_spec_no_skeleton.
Qed.

(** C10. When the [draw_skeleton] argument of [detect_poses] or
    [estimate_poses] is omitted ([None]), the returned list holds no line
    shape: the raw argument reaches [get_shapes_from_poses], whatever value
    the estimator resolved from the configuration. *)
Theorem omitted_draw_skeleton_no_lines w image mn ct dev boxes ids use kt adv start :
  (exists shapes,
      detect_poses w image mn dev ct kt adv start None = Val shapes
      /\ forall s, s ∈ shapes -> shape_type s = point)
  /\
  (exists shapes,
      estimate_poses w image mn ct dev boxes ids use kt adv start None = Val shapes
      /\ forall s, s ∈ shapes -> shape_type s = point).
Proof.
  split.
  - destruct (detect_poses_cases w image mn dev ct kt adv start None)
      as [-> | (est & keypoints & scores & shapes & _ & _ & Hs & ->)].
    + exists []. split; [done |]. intros s Hs. inversion Hs.
    + exists shapes. split; [done |]. intros s.
      by apply (get_shapes_no_skeleton keypoints scores start None).
  - destruct (estimate_poses_cases w image mn ct dev boxes ids use kt adv start None)
      as [-> | (est & keypoints & scores & shapes & _ & Hs & ->)].
    + exists []. split; [done |]. intros s Hs. inversion Hs.
    + exists shapes. split; [done |]. intros s.
      by apply (get_shapes_no_skeleton keypoints scores (first_box_id ids start) None).
Qed.

(** *** A concrete run: torch and KeypointRCNN installed, empty
    configuration file, every inference returns one fully visible person. *)

(** With [draw_skeleton] omitted the estimator itself resolves the flag to
    its default [True], a person with 17 visible joints is detected, and
    the result is 17 point shapes and no line shape. *)
Example omitted_draw_skeleton_run :
  (draw_skeleton <$>
     match PoseEstimator_init one_person_world None None None None None None with
     | Val est => Some est
     | Raise _ => None
     end) = Some true
  /\ match detect_poses one_person_world (blank_image 480 640)
             None None None None None 0 None with
     | Val shapes =>
         length shapes = 17%nat
         /\ forallb (fun s => bool_decide (shape_type s = point)) shapes = true
     | Raise _ => False
     end.
Proof. vm_compute. repeat split; reflexivity. Qed.

(** *** Group identifiers *)


Lemma two_boxes_result_eq :
  PoseEstimator_detect_poses_from_boxes one_person_world default_estimator
    (blank_image 480 640) two_boxes = Val two_boxes_result.
Proof. vm_compute. reflexivity. Qed.



(** The end-to-end scenario: one box with group id 7 and one detected
    person give 17 point shapes and 18 line shapes, all in group 7. *)
Example single_box_scenario :
  match estimate_poses one_person_world (blank_image 480 640) None None None
          (Some [ (100, 50, 300, 400)%Q ]) (Some [Some 7]) None None None 0
          (Some true) with
  | Val shapes =>
      map group_id shapes = replicate 35 7
      /\ length (List.filter (fun s => bool_decide (shape_type s = point)) shapes)
         = 17%nat
  | Raise _ => False
  end.
Proof. vm_compute. split; reflexivity. Qed.

(** ** ResultFilter *)

Lemma keypointrcnn_collect_enough est max_poses instances :
  forall keypoints_list scores_list,
    Forall (enough_keypoints est) keypoints_list ->
    Forall (enough_keypoints est)
      (fst (keypointrcnn_collect est max_poses
              (dict_get (advanced_params est) "min_keypoints" 5)
              instances keypoints_list scores_list)).
Proof.
  induction instances as [|inst rest IH]; intros kl sl Hkl; simpl; [done |].
  destruct (Qgeb _ _) eqn:Hvis.
  - assert (Forall (enough_keypoints est)
              (kl ++ [map convert_keypoint (ikeypoints inst)])) as Hkl'.
    { apply Forall_app. split; [done |]. constructor; [| constructor].
      by apply Qgeb_true in Hvis. }
    destruct (len_ge _ _); [done | by apply IH].
  - by apply IH.
Qed.

Lemma rtmpose_collect_enough est max_poses zipped :
  forall valid_poses valid_scores poses scores,
    Forall (enough_keypoints est) valid_poses ->
    rtmpose_collect est max_poses
      (dict_get (advanced_params est) "min_keypoints" 5)
      zipped valid_poses valid_scores = Val (poses, scores) ->
    Forall (enough_keypoints est) poses.
Proof.
  induction zipped as [|[rows score] rest IH]; intros vp vs poses scores Hvp; simpl.
  - by intros [= <- <-].
  - destruct (exc_mapM unpack3 rows) as [kpts|]; exc_simpl; [| discriminate].
    destruct (Qgeb (inject_Z _) _) eqn:Hvis; simpl.
    + destruct (Qgeb score _); simpl.
      * assert (Forall (enough_keypoints est) (vp ++ [kpts])) as Hvp'.
        { apply Forall_app. split; [done |]. constructor; [| constructor].
          by apply Qgeb_true in Hvis. }
        destruct (len_ge _ _); [by intros [= <- <-] | by apply IH].
      * by apply IH.
    + by apply IH.
Qed.

Lemma mask_keypoints_masked est kpts :
  masked est (mask_keypoints (keypoint_threshold est) kpts).
Proof.
  unfold masked, mask_keypoints. apply Forall_fmap, Forall_forall.
  intros k _. simpl. destruct (Qltb _ _) eqn:Hlt; simpl.
  - by left.
  - right. by apply Qltb_false in Hlt.
Qed.

(** Every pose the box-guided KeypointRCNN loop appends went through
    [mask_keypoints]. *)
Lemma keypointrcnn_boxes_loop_masked w est image boxes :
  forall keypoints_list scores_list calls poses scores,
    Forall (masked est) keypoints_list ->
    fst (keypointrcnn_boxes_loop w est image boxes keypoints_list scores_list calls)
    = Val (poses, scores) ->
    Forall (masked est) poses.
Proof.
  induction boxes as [|box rest IH]; intros kl sl calls poses scores Hkl; simpl.
  - by intros [= <- <-].
  - destruct (clamp_box image box) as [[[x1 y1] x2] y2]. cbv beta iota zeta.
    destruct (_ || _); [by apply IH |].
    destruct (keypointrcnn w (cvtColor_BGR2RGB (crop _ _ _ _ _)))
      as [[|inst insts]|e]; [| | discriminate].
    + destruct (bool_decide _); [| by apply IH].
      destruct (keypointrcnn w (cvtColor_BGR2RGB image))
        as [[|finst full]|e]; [by apply IH | | discriminate].
      destruct (best_match _ _) as [best_iou best_idx].
      destruct (_ && _); [| by apply IH].
      destruct (_ !! _) as [inst|]; [| discriminate].
      apply IH, Forall_app. split; [done |].
      constructor; [apply mask_keypoints_masked | constructor].
    + destruct (Qgeb _ _); [| by apply IH].
      apply IH, Forall_app. split; [done |].
      constructor; [apply mask_keypoints_masked | constructor].
Qed.

(** Whatever the box-guided KeypointRCNN loop appends is a
    [box_guided_pose]: a property of the pose list that survives appending
    one holds of the result. *)
Lemma keypointrcnn_boxes_loop_appends (P : list Pose -> Prop) w est image boxes :
  (forall kl k, P kl -> box_guided_pose w est k -> P (kl ++ [k])) ->
  forall keypoints_list scores_list calls poses scores,
    P keypoints_list ->
    fst (keypointrcnn_boxes_loop w est image boxes keypoints_list scores_list calls)
    = Val (poses, scores) ->
    P poses.
Proof.
  intros Hstep.
  induction boxes as [|box rest IH]; intros kl sl calls poses scores Hkl; simpl.
  - by intros [= <- <-].
  - destruct (clamp_box image box) as [[[x1 y1] x2] y2]. cbv beta iota zeta.
    destruct (_ || _); [by apply IH |].
    destruct (keypointrcnn w (cvtColor_BGR2RGB (crop _ _ _ _ _)))
      as [[|inst insts]|e] eqn:Hcrop; [| | discriminate].
    + destruct (bool_decide _); [| by apply IH].
      destruct (keypointrcnn w (cvtColor_BGR2RGB image))
        as [[|finst full]|e] eqn:Hfull; [by apply IH | | discriminate].
      destruct (best_match _ _) as [best_iou best_idx].
      destruct (_ && _); [| by apply IH].
      destruct (_ !! _) as [inst|] eqn:Hidx; [| discriminate].
      apply IH, Hstep; [done |].
      exists (cvtColor_BGR2RGB image), (finst :: full), inst.
      split_and!; [done | by eapply list_elem_of_lookup_2 | by left].
    + destruct (Qgeb _ _); [| by apply IH].
      apply IH, Hstep; [done |].
      exists (cvtColor_BGR2RGB (crop image y1 y2 x1 x2)), (inst :: insts), inst.
      split_and!; [done | by left | right; by exists x1, y1].
Qed.

(** The loop only appends. *)
Lemma keypointrcnn_boxes_loop_prefix w est image boxes kl sl calls poses scores :
  fst (keypointrcnn_boxes_loop w est image boxes kl sl calls)
  = Val (poses, scores) ->
  exists more, poses = kl ++ more.
Proof.
  apply (keypointrcnn_boxes_loop_appends
           (fun kl' => exists more, kl' = kl ++ more)).
  - intros kl' k [more ->] _. exists (more ++ [k]). by rewrite app_assoc.
  - exists []. by rewrite app_nil_r.
Qed.

(** A box whose crop yields a first instance of sufficient score puts
    that instance's pose, moved to image coordinates and masked, in the
    result of the loop. *)
Lemma keypointrcnn_boxes_loop_keeps w est image box x1 y1 x2 y2 inst others boxes :
  clamp_box image box = (x1, y1, x2, y2) ->
  too_small (x1, y1, x2, y2) = false ->
  keypointrcnn w (cvtColor_BGR2RGB (crop image y1 y2 x1 x2))
  = Val (inst :: others) ->
  Qgeb (iscore inst) (conf_threshold est) = true ->
  box ∈ boxes ->
  forall kl sl calls poses scores,
    fst (keypointrcnn_boxes_loop w est image boxes kl sl calls)
    = Val (poses, scores) ->
    mask_keypoints (keypoint_threshold est)
      (shift_keypoints x1 y1 (ikeypoints inst)) ∈ poses.
Proof.
  intros Hclamp Hsmall Hcrop Hscore.
  induction boxes as [|b rest IH]; intros Hin kl sl calls poses scores.
  - inversion Hin.
  - apply elem_of_cons in Hin as [<- | Hin].
    + cbn [keypointrcnn_boxes_loop]. rewrite Hclamp. cbv beta iota zeta.
      rewrite Hsmall, Hcrop, Hscore. intros Hloop.
      apply keypointrcnn_boxes_loop_prefix in Hloop as [more ->].
      apply elem_of_app. left. apply elem_of_app. right. by left.
    + specialize (IH Hin). clear Hclamp Hsmall Hcrop Hscore. simpl.
      destruct (clamp_box image b) as [[[bx1 by1] bx2] by2].
      cbv beta iota zeta.
      destruct (_ || _); [by apply IH |].
      destruct (keypointrcnn w (cvtColor_BGR2RGB (crop _ _ _ _ _)))
        as [[|binst insts]|e]; [| | discriminate].
      * destruct (bool_decide _); [| by apply IH].
        destruct (keypointrcnn w (cvtColor_BGR2RGB image))
          as [[|finst full]|e]; [by apply IH | | discriminate].
        destruct (best_match _ _) as [best_iou best_idx].
        destruct (_ && _); [| by apply IH].
        destruct (_ !! _) as [finst'|]; [| discriminate].
        by apply IH.
      * destruct (Qgeb _ _); by apply IH.
Qed.

(** The loop reads the two thresholds of the estimator and nothing else
    of it. *)
Lemma keypointrcnn_boxes_loop_advanced_params w est adv image boxes :
  forall kl sl calls,
    keypointrcnn_boxes_loop w (with_advanced_params est adv) image boxes kl sl calls
    = keypointrcnn_boxes_loop w est image boxes kl sl calls.
Proof.
  induction boxes as [|box rest IH]; intros kl sl calls; [done |].
  cbn [keypointrcnn_boxes_loop].
  destruct (clamp_box image box) as [[[x1 y1] x2] y2]. cbv beta iota zeta.
  change (conf_threshold (with_advanced_params est adv))
    with (conf_threshold est).
  change (keypoint_threshold (with_advanced_params est adv))
    with (keypoint_threshold est).
  destruct (too_small _); [by apply IH |].
  destruct (keypointrcnn w (cvtColor_BGR2RGB (crop _ _ _ _ _)))
    as [[|inst insts]|e]; [| | done].
  - destruct (bool_decide _); [| by apply IH].
    destruct (keypointrcnn w (cvtColor_BGR2RGB image))
      as [[|finst full]|e]; [by apply IH | | done].
    destruct (best_match _ _) as [best_iou best_idx].
    destruct (_ && _); [| by apply IH].
    destruct (_ !! _) as [inst|]; [by apply IH | done].
  - destruct (Qgeb _ _); by apply IH.
Qed.

(** C3, amended. The minimum-visible-keypoints filter belongs to the
    full-image KeypointRCNN and RTMPose paths: no pose they return has
    fewer than [min_keypoints] keypoints at or above [keypoint_threshold],
    whatever its instance score.  No box-guided path reads [min_keypoints]:
    [detect_poses_from_boxes] returns the same result whatever
    [advanced_params] holds.  The box-guided KeypointRCNN path keeps the
    first region detection of every usable box whose score reaches
    [conf_threshold], whatever its number of visible keypoints (it is in
    the result unless an inference of the call raised, which empties the
    result), and the box-guided RTMPose path keeps every predicted
    instance; both set the confidence of every keypoint below
    [keypoint_threshold] to 0. *)
Theorem min_keypoints_filter_paths w est image boxes poses scores :
  (_detect_keypointrcnn w est image = Val (poses, scores) ->
     Forall (enough_keypoints est) poses)
  /\ (_detect_rtmpose w est image = Val (poses, scores) ->
     Forall (enough_keypoints est) poses)
  /\ (forall adv,
        PoseEstimator_detect_poses_from_boxes w (with_advanced_params est adv)
          image boxes
        = PoseEstimator_detect_poses_from_boxes w est image boxes)
  /\ (forall box x1 y1 x2 y2 inst others,
        box ∈ boxes ->
        clamp_box image box = (x1, y1, x2, y2) ->
        too_small (x1, y1, x2, y2) = false ->
        keypointrcnn w (cvtColor_BGR2RGB (crop image y1 y2 x1 x2))
        = Val (inst :: others) ->
        (conf_threshold est <= iscore inst)%Q ->
        _detect_keypointrcnn_from_boxes w est image boxes = Val (poses, scores) ->
        mask_keypoints (keypoint_threshold est)
          (shift_keypoints x1 y1 (ikeypoints inst)) ∈ poses
        \/ (poses = []
            /\ exists e,
                 fst (keypointrcnn_boxes_loop w est image boxes [] [] [])
                 = Raise e))
  /\ (forall pred_instances,
        rtmpose_boxes w (cvtColor_BGR2RGB image) boxes = Val pred_instances ->
        _detect_rtmpose_from_boxes w est image boxes = Val (poses, scores) ->
        poses = map (fun inst => mask_keypoints (keypoint_threshold est)
                                   (td_keypoints inst)) pred_instances)
  /\ (_detect_keypointrcnn_from_boxes w est image boxes = Val (poses, scores) ->
     Forall (masked est) poses)
  /\ (_detect_rtmpose_from_boxes w est image boxes = Val (poses, scores) ->
     Forall (masked est) poses).
Proof.
  split_and!.
  - unfold _detect_keypointrcnn.
    destruct (keypointrcnn w _) as [predictions|]; exc_simpl; [| discriminate].
    intros [= Hrun]. change poses with (fst (poses, scores)).
    rewrite <- Hrun. by apply keypointrcnn_collect_enough.
  - unfold _detect_rtmpose, try_except.
    destruct (rtmpose_full w image) as [[keypoints sc]|]; exc_simpl.
    + destruct (rtmpose_collect _ _ _ _ _ _) as [[p s]|] eqn:Hc.
      * intros [= <- <-]. by eapply rtmpose_collect_enough.
      * by intros [= <- <-].
    + by intros [= <- <-].
  - intros adv. unfold PoseEstimator_detect_poses_from_boxes.
    change (is_rtmpose (with_advanced_params est adv)) with (is_rtmpose est).
    change (is_keypointrcnn (with_advanced_params est adv))
      with (is_keypointrcnn est).
    destruct (is_rtmpose est); [done |].
    destruct (is_keypointrcnn est); [| done].
    unfold _detect_keypointrcnn_from_boxes.
    by rewrite keypointrcnn_boxes_loop_advanced_params.
  - intros box x1 y1 x2 y2 inst others Hin Hclamp Hsmall Hcrop Hscore.
    unfold _detect_keypointrcnn_from_boxes, try_except.
    destruct (fst _) as [[p s]|e] eqn:Hloop.
    + intros [= <- <-]. left.
      eapply keypointrcnn_boxes_loop_keeps; try done.
      unfold Qgeb. by apply Qle_bool_iff.
    + intros [= <- <-]. right. split; [done |]. by exists e.
  - intros pred Hpred. unfold _detect_rtmpose_from_boxes.
    rewrite Hpred. exc_simpl. by intros [= <- _].
  - unfold _detect_keypointrcnn_from_boxes, try_except.
    destruct (fst _) as [[p s]|] eqn:Hloop.
    + intros [= <- <-]. by eapply keypointrcnn_boxes_loop_masked.
    + by intros [= <- <-].
  - unfold _detect_rtmpose_from_boxes.
    destruct (rtmpose_boxes w _ boxes) as [pred|]; exc_simpl; [| discriminate].
    intros [= <- _]. apply Forall_fmap, Forall_forall. intros inst _.
    apply mask_keypoints_masked.
Qed.

(** *** Concrete runs of the filter *)

Lemma default_estimator_init model :
  PoseEstimator_init (keypointrcnn_world model) None None None None None None
  = Val default_estimator.
Proof. vm_compute. reflexivity. Qed.

(** C3 fails as stated on the box-guided path. With the default
    configuration ([min_keypoints] 5, keypoint threshold 0.2, confidence
    threshold 0.5), a region detection of score 0.9 with three visible
    keypoints is returned by [detect_poses_from_boxes] and reaches the
    caller of [estimate_poses] as three point shapes; the same detection on
    the full-image path is dropped. *)
Lemma box_guided_path_keeps_sparse_pose :
  exists poses scores shapes,
    dict_get (advanced_params default_estimator) "min_keypoints" 5 = 5%Q
    /\ PoseEstimator_detect_poses_from_boxes sparse_world default_estimator
         (blank_image 480 640) one_box = Val (poses, scores)
    /\ scores = [ (9 # 10)%Q ]
    /\ map (visible_keypoints (keypoint_threshold default_estimator)) poses = [3]
    /\ ~ Forall (enough_keypoints default_estimator) poses
    /\ estimate_poses sparse_world (blank_image 480 640) None None None
         (Some one_box) None None None None 0 None = Val shapes
    /\ length shapes = 3%nat
    /\ PoseEstimator_detect_poses sparse_world default_estimator
         (blank_image 480 640) = Val ([], []).
Proof.
  eexists _, _, _. split; [vm_compute; reflexivity |].
  split; [vm_compute; reflexivity |].
  split; [reflexivity |]. split; [vm_compute; reflexivity |].
  split.
  { intros H. apply Forall_cons in H as [H _].
    unfold enough_keypoints in H. vm_compute in H. by apply H. }
  split; [vm_compute; reflexivity |].
  split; vm_compute; reflexivity.
Qed.

Lemma min_keypoints_filter_paths_witness :
  (length mixed_full_result.1 = 1%nat
   /\ Forall (enough_keypoints default_estimator) mixed_full_result.1)
  /\ (visible_keypoints (keypoint_threshold default_estimator) sparse_box_pose = 3
      /\ (sparse_box_pose ∈ sparse_box_result.1
          \/ (sparse_box_result.1 = []
              /\ exists e,
                   fst (keypointrcnn_boxes_loop sparse_world default_estimator
                          (blank_image 480 640) one_box [] [] [])
                   = Raise e)))
  /\ Forall (masked default_estimator) sparse_box_result.1.
Proof.
  split; [split; [reflexivity |] | split; [split; [reflexivity |] |]].
  - apply (proj1 (min_keypoints_filter_paths mixed_world default_estimator
                    (blank_image 480 640) [] mixed_full_result.1 mixed_full_result.2)).
    vm_compute. reflexivity.
  - apply (proj1 (proj2 (proj2 (proj2
             (min_keypoints_filter_paths sparse_world default_estimator
                (blank_image 480 640) one_box
                sparse_box_result.1 sparse_box_result.2))))
             (100, 50, 300, 400)%Q 100 50 300 400 sparse_person []).
    + left.
    + vm_compute. reflexivity.
    + vm_compute. reflexivity.
    + vm_compute. reflexivity.
    + vm_compute. discriminate.
    + vm_compute. reflexivity.
  - apply (proj1 (proj2 (proj2 (proj2 (proj2 (proj2
             (min_keypoints_filter_paths sparse_world default_estimator
                (blank_image 480 640) one_box
                sparse_box_result.1 sparse_box_result.2))))))).
    vm_compute. reflexivity.
Defined.

(** ** DetectionReconciler: the IoU fallback *)

Lemma enumerate_snoc {A} (l : list A) (a : A) :
  enumerate (l ++ [a]) = enumerate l ++ [(length l, a)].
Proof.
  unfold enumerate. rewrite length_app. simpl.
  rewrite Nat.add_1_r, seq_S. simpl.
  rewrite zip_with_app by (by rewrite length_seq). reflexivity.
Qed.

Lemma best_match_snoc b preds p :
  best_match b (preds ++ [p])
  = iou_step b (best_match b preds) (length preds, p).
Proof.
  unfold best_match. rewrite enumerate_snoc, fold_left_app. reflexivity.
Qed.

(** One iteration either keeps the running best or replaces it by the IoU
    of the current box, which is then strictly larger. *)
Lemma iou_step_cases b bi idx i p :
  (0 <= bi)%Q ->
  (iou_step b (bi, idx) (i, p) = (bi, idx) /\ (iou b p <= bi)%Q)
  \/ (iou_step b (bi, idx) (i, p) = (iou b p, Z.of_nat i) /\ (bi < iou b p)%Q).
Proof.
  intros Hbi. unfold iou, iou_step.
  destruct b as [[[x1 y1] x2] y2], p as [[[px1 py1] px2] py2].
  cbv zeta. cbn [fst].
  destruct (Qgtb _ _ && Qgtb _ _); [| left; split; [done | cbn [fst]; lra]].
  set (v := (_ / _)%Q).
  destruct (Qgtb v bi) eqn:Hv.
  - right. apply Qgtb_true in Hv.
    assert (Qgtb v 0 = true) as -> by (apply Qgtb_true; lra).
    cbn [fst]. split; [done | lra].
  - left. apply Qgtb_false in Hv. split; [done |].
    destruct (Qgtb v 0); cbn [fst]; lra.
Qed.

(** The search returns the greatest IoU over the predicted boxes and the
    index of a box that attains it, or [(0, -1)] when no box overlaps. *)
Lemma best_match_spec b preds :
  let '(best_iou, best_idx) := best_match b preds in
  (0 <= best_iou)%Q
  /\ (forall i p, preds !! i = Some p -> (iou b p <= best_iou)%Q)
  /\ ((best_idx = -1 /\ best_iou = 0%Q)
      \/ (0 <= best_idx /\ (0 < best_iou)%Q
          /\ exists p, preds !! Z.to_nat best_idx = Some p /\ iou b p = best_iou)).
Proof.
  induction preds as [|p preds IH] using rev_ind.
  - cbn. split_and!; [lra | intros i p H; by rewrite lookup_nil in H | by left].
  - rewrite best_match_snoc.
    destruct (best_match b preds) as [bi idx].
    destruct IH as (Hbi & Hmax & Hidx).
    destruct (iou_step_cases b bi idx (length preds) p Hbi) as [[-> Hle] | [-> Hlt]].
    + split_and!; [done | |].
      * intros i q Hq. apply lookup_app_Some in Hq as [Hq | [_ Hq]].
        -- by eapply Hmax.
        -- apply list_lookup_singleton_Some in Hq as [_ <-]. done.
      * destruct Hidx as [? | (H0 & Hpos & q & Hq & Hiou)]; [by left | right].
        split_and!; [done | done |]. exists q. split; [| done].
        by apply lookup_app_l_Some.
    + split_and!; [lra | |].
      * intros i q Hq. apply lookup_app_Some in Hq as [Hq | [_ Hq]].
        -- specialize (Hmax _ _ Hq). lra.
        -- apply list_lookup_singleton_Some in Hq as [_ <-]. lra.
      * right. split_and!; [lia | lra |]. exists p. split; [| done].
        rewrite Nat2Z.id. by apply list_lookup_middle.
Qed.

(** The iteration for a box whose crop yields no instance while no pose
    has been collected yet: one region inference, one whole-image
    inference, then the IoU test. *)
Lemma fallback_step w est image box rest x1 y1 x2 y2 full sl calls :
  clamp_box image box = (x1, y1, x2, y2) ->
  too_small (x1, y1, x2, y2) = false ->
  keypointrcnn w (cvtColor_BGR2RGB (crop image y1 y2 x1 x2)) = Val [] ->
  keypointrcnn w (cvtColor_BGR2RGB image) = Val full ->
  keypointrcnn_boxes_loop w est image (box :: rest) [] sl calls
  = let calls := (calls ++ [RegionInference x1 y1 x2 y2]) ++ [FullInference] in
    let '(best_iou, best_idx) := best_match (x1, y1, x2, y2) (map ibox full) in
    if (0 <=? best_idx) && Qgtb best_iou (3 # 10) then
      match full !! Z.to_nat best_idx with
      | Some inst =>
          keypointrcnn_boxes_loop w est image rest
            [mask_keypoints (keypoint_threshold est) (ikeypoints inst)]
            (sl ++ [iscore inst]) calls
      | None => (Raise IndexError, calls)
      end
    else keypointrcnn_boxes_loop w est image rest [] sl calls.
Proof.
  intros Hclamp Hsmall Hcrop Hfull.
  cbn [keypointrcnn_boxes_loop]. rewrite Hclamp. cbv beta iota zeta.
  rewrite Hsmall, Hcrop. cbn [length bool_decide decide_rel].
  rewrite bool_decide_eq_true_2 by done. rewrite Hfull.
  destruct full as [|inst full]; [reflexivity |]. reflexivity.
Qed.

(** C5 fails as stated. The known box [[0, 0, 200, 100]] on a 200 x 200
    image yields no region detection, and the whole image holds a detection
    [[0, 0, 200, 30.01]] whose IoU with the known box is 0.3001; the loop
    measures the IoU with the box clamped to [[0, 0, 199, 100]], gets less
    than 0.3 and returns no pose.  And a box that fails after a pose has
    been collected is not matched at all, although the whole image holds a
    detection of IoU 1 with it. *)
Lemma iou_of_known_box_not_decisive :
  (intersection_over_union border_box (ibox border_person) == 3001 # 10000)%Q
  /\ (3 # 10 < intersection_over_union border_box (ibox border_person))%Q
  /\ clamp_box (blank_image 200 200) border_box = (0, 0, 199, 100)%Z
  /\ keypointrcnn border_world
       (cvtColor_BGR2RGB (crop (blank_image 200 200) 0 100 0 199)) = Val []
  /\ keypointrcnn border_world (cvtColor_BGR2RGB (blank_image 200 200))
     = Val [border_person]
  /\ (iou (0, 0, 199, 100)%Z (ibox border_person) < 3 # 10)%Q
  /\ _detect_keypointrcnn_from_boxes border_world default_estimator
       (blank_image 200 200) [border_box] = Val ([], [])
  /\ (intersection_over_union right_box right_box == 1)%Q
  /\ keypointrcnn right_only_on_full_world
       (cvtColor_BGR2RGB (crop (blank_image 200 200) 0 100 100 190)) = Val []
  /\ (exists inst,
        keypointrcnn right_only_on_full_world
          (cvtColor_BGR2RGB (blank_image 200 200)) = Val [inst]
        /\ ibox inst = right_box)
  /\ _detect_keypointrcnn_from_boxes right_only_on_full_world default_estimator
       (blank_image 200 200) [left_box; right_box]
     = Val ([mask_keypoints (keypoint_threshold default_estimator)
               (shift_keypoints 0 0 (ikeypoints person))],
            [iscore person]).
Proof.
  split_and!; try (vm_compute; reflexivity).
  eexists. split; vm_compute; reflexivity.
Qed.

(** C5, amended. IoU fallback: for a known box whose region detection
    returns no instance while no pose has been collected so far in the
    call, the whole-image detections are searched for the greatest IoU
    with the box as the loop uses it, its coordinates truncated to
    integers and clamped to [[0, width - 1] x [0, height - 1]]; the box
    contributes the pose of an instance of greatest IoU exactly when that
    IoU exceeds 0.3, and contributes no pose otherwise. *)
Theorem iou_fallback_threshold w est image box rest x1 y1 x2 y2 full sl calls :
  clamp_box image box = (x1, y1, x2, y2) ->
  too_small (x1, y1, x2, y2) = false ->
  keypointrcnn w (cvtColor_BGR2RGB (crop image y1 y2 x1 x2)) = Val [] ->
  keypointrcnn w (cvtColor_BGR2RGB image) = Val full ->
  let calls' := (calls ++ [RegionInference x1 y1 x2 y2]) ++ [FullInference] in
  ((forall inst, inst ∈ full -> (iou (x1, y1, x2, y2) (ibox inst) <= 3 # 10)%Q) ->
     keypointrcnn_boxes_loop w est image (box :: rest) [] sl calls
     = keypointrcnn_boxes_loop w est image rest [] sl calls')
  /\
  ((exists inst, inst ∈ full /\ (3 # 10 < iou (x1, y1, x2, y2) (ibox inst))%Q) ->
     exists inst,
       inst ∈ full
       /\ (3 # 10 < iou (x1, y1, x2, y2) (ibox inst))%Q
       /\ (forall inst', inst' ∈ full ->
             (iou (x1, y1, x2, y2) (ibox inst')
              <= iou (x1, y1, x2, y2) (ibox inst))%Q)
       /\ keypointrcnn_boxes_loop w est image (box :: rest) [] sl calls
          = keypointrcnn_boxes_loop w est image rest
              [mask_keypoints (keypoint_threshold est) (ikeypoints inst)]
              (sl ++ [iscore inst]) calls').
Proof.
  intros Hclamp Hsmall Hcrop Hfull calls'.
  rewrite (fallback_step w est image box rest x1 y1 x2 y2 full sl calls
             Hclamp Hsmall Hcrop Hfull).
  cbv zeta. fold calls'.
  pose proof (best_match_spec (x1, y1, x2, y2) (map ibox full)) as Hspec.
  destruct (best_match (x1, y1, x2, y2) (map ibox full)) as [best_iou best_idx].
  destruct Hspec as (Hnonneg & Hmax & Hidx).
  assert (Hall : forall inst, inst ∈ full ->
                   (iou (x1, y1, x2, y2) (ibox inst) <= best_iou)%Q).
  { intros inst [n Hn]%list_elem_of_lookup. apply (Hmax n).
    by rewrite list_lookup_fmap, Hn. }
  split.
  - intros Hlow.
    assert (Qgtb best_iou (3 # 10) = false) as ->.
    { apply Qgtb_false.
      destruct Hidx as [[_ ->] | (_ & _ & p & Hp & <-)]; [lra |].
      rewrite list_lookup_fmap in Hp.
      destruct (full !! Z.to_nat best_idx) as [inst|] eqn:Hinst; [| discriminate].
      injection Hp as <-. by eapply Hlow, list_elem_of_lookup_2. }
    rewrite andb_false_r. reflexivity.
  - intros (inst0 & Hin0 & Hhigh).
    pose proof (Hall _ Hin0) as Hle0.
    destruct Hidx as [[_ ->] | (Hpos & _ & p & Hp & Hiou)]; [lra |].
    rewrite list_lookup_fmap in Hp.
    destruct (full !! Z.to_nat best_idx) as [inst|] eqn:Hinst; [| discriminate].
    injection Hp as <-.
    assert (Qgtb best_iou (3 # 10) = true) as -> by (apply Qgtb_true; lra).
    assert ((0 <=? best_idx) = true) as -> by lia.
    exists inst. split_and!.
    + by eapply list_elem_of_lookup_2.
    + rewrite Hiou. lra.
    + intros inst' Hin'. rewrite Hiou. by apply Hall.
    + reflexivity.
Qed.

(** *** IoU 0.35 and IoU 0.25 *)

Lemma iou_fallback_threshold_witness :
  (iou (0, 0, 100, 100)%Z (ibox (overlap_person 35)) == 35 # 100)%Q
  /\ (iou (0, 0, 100, 100)%Z (ibox (overlap_person 25)) == 25 # 100)%Q
  /\ _detect_keypointrcnn_from_boxes (fallback_world 25) default_estimator
       (blank_image 200 200) [square_box] = Val ([], [])
  /\ exists inst,
       inst ∈ [overlap_person 35]
       /\ _detect_keypointrcnn_from_boxes (fallback_world 35) default_estimator
            (blank_image 200 200) [square_box]
          = Val ([mask_keypoints (keypoint_threshold default_estimator)
                    (ikeypoints inst)], [iscore inst]).
Proof.
  split; [reflexivity |]. split; [reflexivity |]. split.
  - unfold _detect_keypointrcnn_from_boxes.
    rewrite (proj1 (iou_fallback_threshold (fallback_world 25) default_estimator
                      (blank_image 200 200) square_box [] 0 0 100 100
                      [overlap_person 25] [] []
                      eq_refl eq_refl eq_refl eq_refl)).
    + reflexivity.
    + intros inst Hin. apply list_elem_of_singleton in Hin. subst inst.
      vm_compute. discriminate.
  - destruct (proj2 (iou_fallback_threshold (fallback_world 35) default_estimator
                    (blank_image 200 200) square_box [] 0 0 100 100
                    [overlap_person 35] [] []
                    eq_refl eq_refl eq_refl eq_refl))
      as (inst & Hin & _ & _ & Hrun).
    + exists (overlap_person 35). split; [by apply list_elem_of_singleton |].
      vm_compute. reflexivity.
    + exists inst. split; [done |].
      unfold _detect_keypointrcnn_from_boxes. rewrite Hrun. reflexivity.
Defined.

Example iou_035_matched :
  _detect_keypointrcnn_from_boxes (fallback_world 35) default_estimator
    (blank_image 200 200) [square_box]
  = Val ([person_keypoints 1], [ (9 # 10)%Q ]).
Proof. vm_compute. reflexivity. Qed.

Example iou_025_not_matched :
  _detect_keypointrcnn_from_boxes (fallback_world 25) default_estimator
    (blank_image 200 200) [square_box]
  = Val ([], []).
Proof. vm_compute. reflexivity. Qed.

(** ** DetectionReconciler: when the fallback runs *)





(** *** Two boxes on a 200 x 200 image *)



(** ** Confidence remap *)

(** [conf = vis / 2.0 if vis > 0 else 0.0] on the visibilities 0, 1, 2. *)
Lemma visibility_to_confidence_values (vis : Q) :
  (vis == 0 \/ vis == 1 \/ vis == 2)%Q ->
  (visibility_to_confidence vis == vis / 2)%Q
  /\ ((vis == 0)%Q -> (visibility_to_confidence vis == 0)%Q)
  /\ ((vis == 1)%Q -> (visibility_to_confidence vis == 1 # 2)%Q)
  /\ ((vis == 2)%Q -> (visibility_to_confidence vis == 1)%Q).
Proof.
  intros Hvis. unfold visibility_to_confidence.
  destruct (Qgtb vis 0) eqn:Hpos.
  - apply Qgtb_true in Hpos. split_and!.
    + reflexivity.
    + intros H. lra.
    + intros ->. reflexivity.
    + intros ->. reflexivity.
  - apply Qgtb_false in Hpos.
    assert (vis == 0)%Q as Hz by (destruct Hvis as [H | [H | H]]; lra).
    split_and!.
    + rewrite Hz. reflexivity.
    + reflexivity.
    + intros H. lra.
    + intros H. lra.
Qed.

Lemma convert_keypoint_remapped k : remapped (convert_keypoint k) k.
Proof.
  unfold remapped, convert_keypoint, visibility_to_confidence. cbn [kx ky kconf].
  split; [done |]. split; [done |].
  destruct (Qgtb (kconf k) 0) eqn:Hpos.
  - apply Qgtb_true in Hpos. split_and!.
    + reflexivity.
    + intros H. lra.
    + intros H. lra.
    + intros ->. reflexivity.
    + intros ->. reflexivity.
  - apply Qgtb_false in Hpos. split_and!.
    + intros H. lra.
    + reflexivity.
    + reflexivity.
    + intros H. lra.
    + intros H. lra.
Qed.

(** Every pose collected by the loop of [_detect_keypointrcnn] is the
    converted keypoint list of one of the instances. *)
Lemma keypointrcnn_collect_from est max_poses min_keypoints instances :
  forall keypoints_list scores_list kpts,
    kpts ∈ fst (keypointrcnn_collect est max_poses min_keypoints instances
                  keypoints_list scores_list) ->
    kpts ∈ keypoints_list
    \/ exists inst, inst ∈ instances
                    /\ kpts = map convert_keypoint (ikeypoints inst).
Proof.
  induction instances as [|inst rest IH]; intros kl sl kpts; simpl.
  - by left.
  - assert (Hrest : forall kl' sl',
              kpts ∈ fst (keypointrcnn_collect est max_poses min_keypoints rest
                            kl' sl') ->
              (kpts ∈ kl' -> kpts ∈ kl
                             \/ kpts = map convert_keypoint (ikeypoints inst)) ->
              kpts ∈ kl
              \/ exists inst', inst' ∈ inst :: rest
                               /\ kpts = map convert_keypoint (ikeypoints inst')).
    { intros kl' sl' Hin Hkl'.
      destruct (IH kl' sl' kpts Hin) as [Hk | (inst' & Hin' & ->)].
      - destruct (Hkl' Hk) as [? | ->]; [by left |].
        right. exists inst. split; [by left | done].
      - right. exists inst'. split; [by right | done]. }
    assert (Happ : kpts ∈ kl ++ [map convert_keypoint (ikeypoints inst)] ->
                   kpts ∈ kl \/ kpts = map convert_keypoint (ikeypoints inst)).
    { intros [H | H]%elem_of_app; [by left |].
      apply list_elem_of_singleton in H. by right. }
    destruct (Qgeb _ _).
    + destruct (len_ge _ _).
      * cbn [fst]. intros H. destruct (Happ H) as [? | ->]; [by left |].
        right. exists inst. split; [by left | done].
      * intros H. by apply (Hrest _ _ H).
    + intros H. apply (Hrest _ _ H). by left.
Qed.

Lemma mask_shift_kconf threshold x1 y1 kpts :
  map kconf (mask_keypoints threshold (shift_keypoints x1 y1 kpts))
  = map (raw_or_zero threshold) kpts.
Proof.
  unfold mask_keypoints, shift_keypoints, raw_or_zero.
  rewrite !map_map. apply map_ext. intros k. cbn [kconf].
  by destruct (Qltb _ _).
Qed.

Lemma mask_kconf threshold kpts :
  map kconf (mask_keypoints threshold kpts) = map (raw_or_zero threshold) kpts.
Proof.
  unfold mask_keypoints, raw_or_zero.
  rewrite !map_map. apply map_ext. intros k.
  by destruct (Qltb _ _).
Qed.

(** C8 fails as stated. In the crop of a box the model finds a person
    whose keypoints carry the visibilities 0, 1, 2 in turn; the box-guided
    KeypointRCNN path returns them as 0, 1, 2, not as 0, 0.5, 1, while the
    full-image path of the same backend halves them. *)
Lemma box_guided_path_does_not_remap :
  exists kpts scores k1 k2,
    map kconf (ikeypoints graded_person)
    = [0; 1; 2; 0; 1; 2; 0; 1; 2; 0; 1; 2; 0; 1; 2; 0; 1]%Q
    /\ _detect_keypointrcnn_from_boxes graded_world default_estimator
         (blank_image 480 640) one_box = Val ([kpts], scores)
    /\ map kconf kpts = map kconf (ikeypoints graded_person)
    /\ kpts !! 1%nat = Some k1 /\ kconf k1 = 1%Q
    /\ ~ (kconf k1 == 1 / 2)%Q
    /\ kpts !! 2%nat = Some k2 /\ kconf k2 = 2%Q
    /\ ~ (kconf k2 == 2 / 2)%Q
    /\ exists kpts' scores',
         _detect_keypointrcnn graded_world default_estimator
           (blank_image 480 640) = Val ([kpts'], scores')
         /\ Forall2 Qeq (map kconf kpts')
              [0; 1 # 2; 1; 0; 1 # 2; 1; 0; 1 # 2; 1; 0; 1 # 2; 1; 0; 1 # 2; 1;
               0; 1 # 2]%Q.
Proof.
  eexists _, _, _, _.
  split; [vm_compute; reflexivity |].
  split; [vm_compute; reflexivity |].
  split; [vm_compute; reflexivity |].
  split; [vm_compute; reflexivity |].
  split; [vm_compute; reflexivity |].
  split; [intros H; vm_compute in H; discriminate |].
  split; [vm_compute; reflexivity |].
  split; [vm_compute; reflexivity |].
  split; [intros H; vm_compute in H; discriminate |].
  eexists _, _.
  split; [vm_compute; reflexivity |].
  repeat (constructor; [vm_compute; reflexivity |]). constructor.
Qed.

(** C8, amended. The remap belongs to the full-image KeypointRCNN path:
    every pose [_detect_keypointrcnn] returns is the keypoint list of an
    instance the model predicted on the image, with the coordinates
    unchanged and the visibility [v] replaced by [v / 2] when [v > 0] and
    by 0 otherwise, so that 0, 1, 2 become 0, 1/2, 1.  The box-guided
    KeypointRCNN path applies no remap: every pose it returns carries the
    third components of a predicted instance as they are, or 0 where they
    are below [keypoint_threshold]. *)
Theorem confidence_remap w est image boxes poses scores :
  (_detect_keypointrcnn w est image = Val (poses, scores) ->
   exists predictions,
     keypointrcnn w (cvtColor_BGR2RGB image) = Val predictions
     /\ forall kpts, kpts ∈ poses ->
          exists inst,
            inst ∈ predictions
            /\ Forall2 remapped kpts (ikeypoints inst))
  /\ (_detect_keypointrcnn_from_boxes w est image boxes = Val (poses, scores) ->
      forall kpts, kpts ∈ poses ->
        exists img insts inst,
          keypointrcnn w img = Val insts
          /\ inst ∈ insts
          /\ map kconf kpts
             = map (raw_or_zero (keypoint_threshold est)) (ikeypoints inst)).
Proof.
  split.
  - unfold _detect_keypointrcnn.
    destruct (keypointrcnn w _) as [predictions|]; exc_simpl; [| discriminate].
    intros [= Hrun]. exists predictions. split; [done |].
    intros kpts Hin. change poses with (fst (poses, scores)) in Hin.
    rewrite <- Hrun in Hin.
    apply keypointrcnn_collect_from in Hin as [Hin | (inst & Hinst & ->)];
      [inversion Hin |].
    exists inst. split.
    + apply list_elem_of_In, List.filter_In in Hinst as [Hinst _].
      by apply list_elem_of_In.
    + apply Forall2_fmap_l, Forall_Forall2_diag, Forall_forall.
      intros k _. apply convert_keypoint_remapped.
  - unfold _detect_keypointrcnn_from_boxes, try_except.
    destruct (fst _) as [[p s]|] eqn:Hloop.
    + intros [= <- <-] kpts Hin.
      apply (keypointrcnn_boxes_loop_appends (Forall (box_guided_pose w est)))
        in Hloop.
      * rewrite Forall_forall in Hloop.
        destruct (Hloop kpts Hin)
          as (img & insts & inst & Himg & Hinst & [-> | (x1 & y1 & ->)]);
          exists img, insts, inst; split_and!; try done.
        -- apply mask_kconf.
        -- apply mask_shift_kconf.
      * intros kl k Hkl Hk. apply Forall_app. split; [done |].
        by constructor.
      * constructor.
    + intros [= <- <-] kpts Hin. inversion Hin.
Qed.

Lemma confidence_remap_witness :
  (exists predictions,
     keypointrcnn graded_world (cvtColor_BGR2RGB (blank_image 480 640))
     = Val predictions
     /\ forall kpts, kpts ∈ graded_full_result.1 ->
          exists inst,
            inst ∈ predictions
            /\ Forall2 remapped kpts (ikeypoints inst))
  /\ (forall kpts, kpts ∈ graded_box_result.1 ->
        exists img insts inst,
          keypointrcnn graded_world img = Val insts
          /\ inst ∈ insts
          /\ map kconf kpts
             = map (raw_or_zero (keypoint_threshold default_estimator))
                   (ikeypoints inst)).
Proof.
  split.
  - apply (proj1 (confidence_remap graded_world default_estimator
                    (blank_image 480 640) [] graded_full_result.1
                    graded_full_result.2)).
    vm_compute. reflexivity.
  - apply (proj2 (confidence_remap graded_world default_estimator
                    (blank_image 480 640) one_box graded_box_result.1
                    graded_box_result.2)).
    vm_compute. reflexivity.
Defined.

(** The remap leaves the coordinates alone. *)
Lemma convert_keypoint_coordinates kpt :
  kx (convert_keypoint kpt) = kx kpt /\ ky (convert_keypoint kpt) = ky kpt.
Proof. by split. Qed.

(** ** Configuration values *)





(** ** GeometryTransform: the round trip *)

(** C7 fails as stated. A 1000 x 701 image letterboxed to 640: the resized
    height 448.64 is rounded to 449 and the top padding 95.5 to 95, while
    the inverse uses the unrounded 448.64 and 95.68; [_letterbox] returns,
    and the corner [(0, 0)] comes back as [(0, -17/16)], more than a pixel
    away. *)
Lemma letterbox_round_trip_off_by_a_pixel :
  exists lb q,
    _letterbox 701 1000 640 32 = Val lb
    /\ round_trip 701 1000 640 32 (0, 0)%Z (0, 0)%Q = Val q
    /\ (snd q == - (17 # 16))%Q
    /\ ~ (snd q == 0)%Q
    /\ (1 < Qabs (snd q - 0))%Q
    /\ top lb = 95
    /\ new_unpad lb = (640, 449).
Proof.
  eexists _, _.
  split; [vm_compute; reflexivity |].
  split; [vm_compute; reflexivity |].
  split; [vm_compute; reflexivity |].
  split; [intros H; vm_compute in H; discriminate |].
  split_and!; vm_compute; reflexivity.
Qed.

Lemma py_round_near (q : Q) :
  (q - (1 # 2) <= inject_Z (py_round q) <= q + (1 # 2))%Q.
Proof.
  unfold py_round.
  pose proof (Qfloor_le q) as Hlo. pose proof (Qlt_floor q) as Hhi.
  rewrite inject_Z_plus in Hhi. change (inject_Z 1) with 1%Q in Hhi.
  destruct (Qltb _ (1 # 2)) eqn:H1.
  - apply Qltb_true in H1. lra.
  - apply Qltb_false in H1.
    destruct (Qltb (1 # 2) _) eqn:H2.
    + apply Qltb_true in H2. rewrite inject_Z_plus.
      change (inject_Z 1) with 1%Q. lra.
    + apply Qltb_false in H2.
      destruct (Z.even _);
        [| rewrite inject_Z_plus; change (inject_Z 1) with 1%Q]; lra.
Qed.

Lemma inject_Z_sub (a b : Z) : (inject_Z (a - b) == inject_Z a - inject_Z b)%Q.
Proof. unfold Z.sub. rewrite inject_Z_plus, inject_Z_opp. reflexivity. Qed.

Lemma Qminq_comm (a b : Q) : (Qminq a b == Qminq b a)%Q.
Proof.
  unfold Qminq.
  destruct (Qle_bool a b) eqn:Hab, (Qle_bool b a) eqn:Hba; try reflexivity.
  - apply Qle_bool_iff in Hab, Hba. lra.
  - assert (~ (a <= b)%Q) by (rewrite <- Qle_bool_iff; congruence).
    assert (~ (b <= a)%Q) by (rewrite <- Qle_bool_iff; congruence).
    lra.
Qed.

Lemma Qminq_pos (a b : Q) : (0 < a -> 0 < b -> 0 < Qminq a b)%Q.
Proof. unfold Qminq. by destruct (Qle_bool a b). Qed.

(** The round trip along one axis of length [n]: [N'] is the rounded
    resized length, [lead] the rounded leading padding. *)
Lemma axis_round_trip (T n N' lead o r x : Q) :
  (0 < n)%Q -> (0 < r)%Q -> (0 <= x <= n)%Q ->
  (- (1 # 2) <= N' - n * r <= 1 # 2)%Q ->
  (- (6 # 10) <= lead - (T - N') / 2 <= 4 # 10)%Q ->
  (Qabs (((x * N' / n + lead - (T - n * r) / 2) / r + o) - (x + o)) * r
   <= 17 # 20)%Q.
Proof.
  intros Hn Hr Hx Hd He.
  set (t := (x / n - (1 # 2))%Q).
  assert (Ht : (- (1 # 2) <= t <= 1 # 2)%Q).
  { assert (Hxn : (x / n * n == x)%Q) by (field; lra).
    unfold t. split; nra. }
  assert (Heq : ((((x * N' / n + lead - (T - n * r) / 2) / r + o) - (x + o)) * r
                 == (N' - n * r) * t + (lead - (T - N') / 2))%Q).
  { unfold t. field. split; lra. }
  assert (Hb : (- (17 # 20) <= (N' - n * r) * t + (lead - (T - N') / 2)
                 <= 17 # 20)%Q) by (split; nra).
  rewrite <- Heq in Hb.
  apply Qabs_case; intros Hz; nra.
Qed.

(** What a returning [_letterbox] returns. *)
Lemma _letterbox_Val (h w target stride : Z) (lb : Letterbox) :
  _letterbox h w target stride = Val lb ->
  lb = letterbox_geometry h w target stride
  /\ resize_fails h w lb = false /\ border_fails lb = false.
Proof.
  unfold _letterbox. cbv zeta.
  destruct (_ || _); [discriminate |].
  destruct (resize_fails _ _ _) eqn:Hr; [discriminate |].
  destruct (border_fails _) eqn:Hb; [discriminate |].
  intros [= <-]. done.
Qed.

(** C7, amended. Whenever [_letterbox] returns for the image (it raises
    when a resized side rounds to 0), and for a point inside the source
    image, letterboxing and mapping back returns, and recovers each
    coordinate (crop origin added) up to an error of at most
    [0.85 / scale], where [scale = min(target / h, target / w)] is the
    returned ratio: [_letterbox] rounds the resized size and the padding to
    whole pixels, the inverse mapping uses the unrounded values.  [stride]
    plays no part. *)
Theorem letterbox_round_trip_bound (h w target stride ox oy : Z) (x y : Q)
    (lb : Letterbox) :
  0 < h -> 0 < w -> 0 < target ->
  (0 <= x <= inject_Z w)%Q -> (0 <= y <= inject_Z h)%Q ->
  _letterbox h w target stride = Val lb ->
  let scale := fst (ratio lb) in
  exists q,
    round_trip h w target stride (ox, oy) (x, y) = Val q
    /\ (Qabs (fst q - (x + inject_Z ox)) * scale <= 17 # 20)%Q
    /\ (Qabs (snd q - (y + inject_Z oy)) * scale <= 17 # 20)%Q.
Proof.
  intros Hh Hw Ht Hx Hy Hlb.
  assert (HhQ : (0 < inject_Z h)%Q) by (rewrite <- (Zlt_Qlt 0); lia).
  assert (HwQ : (0 < inject_Z w)%Q) by (rewrite <- (Zlt_Qlt 0); lia).
  assert (HtQ : (0 < inject_Z target)%Q) by (rewrite <- (Zlt_Qlt 0); lia).
  unfold round_trip. rewrite Hlb. exc_simpl.
  apply _letterbox_Val in Hlb as (-> & _ & _).
  eexists. split; [reflexivity |].
  unfold unletterbox, letterbox_forward, letterbox_geometry.
  cbn [fst snd ratio new_unpad left top dw dh].
  set (r1 := Qminq (inject_Z target / inject_Z h) (inject_Z target / inject_Z w)).
  set (r2 := Qminq (inject_Z target / inject_Z w) (inject_Z target / inject_Z h)).
  assert (Hr : (r1 == r2)%Q) by apply Qminq_comm.
  assert (Hr2 : (0 < r2)%Q).
  { apply Qminq_pos; apply Qlt_shift_div_l; lra. }
  set (Nw := py_round (inject_Z w * r1)). set (Nh := py_round (inject_Z h * r1)).
  pose proof (py_round_near (inject_Z w * r1)) as HNw. fold Nw in HNw.
  pose proof (py_round_near (inject_Z h * r1)) as HNh. fold Nh in HNh.
  set (lft := py_round (inject_Z (target - Nw) / 2 - (1 # 10))).
  set (tp := py_round (inject_Z (target - Nh) / 2 - (1 # 10))).
  pose proof (py_round_near (inject_Z (target - Nw) / 2 - (1 # 10))) as Hl.
  fold lft in Hl.
  pose proof (py_round_near (inject_Z (target - Nh) / 2 - (1 # 10))) as Htp.
  fold tp in Htp.
  rewrite inject_Z_sub in Hl, Htp.
  rewrite Hr in HNw, HNh. rewrite Hr.
  split.
  - apply axis_round_trip; [done | done | done | lra | lra].
  - apply axis_round_trip; [done | done | done | lra | lra].
Qed.

Lemma letterbox_round_trip_bound_witness :
  exists q,
    round_trip 701 1000 640 32 (0, 0)%Z (0, 0)%Q = Val q
    /\ (Qabs (fst q - (0 + inject_Z 0))
        * fst (ratio (letterbox_geometry 701 1000 640 32)) <= 17 # 20)%Q
    /\ (Qabs (snd q - (0 + inject_Z 0))
        * fst (ratio (letterbox_geometry 701 1000 640 32)) <= 17 # 20)%Q.
Proof.
  apply (letterbox_round_trip_bound 701 1000 640 32 0 0 0 0
           (letterbox_geometry 701 1000 640 32));
    vm_compute; try reflexivity; split; discriminate.
Defined.

(** When nothing is rounded the round trip is exact: a 640 x 480 image
    letterboxed to 640 keeps its size and gets 80 rows of padding. *)
Example letterbox_round_trip_640_480 :
  exists q,
    round_trip 480 640 640 32 (100, 50)%Z (320, 240)%Q = Val q
    /\ (fst q == 420)%Q /\ (snd q == 290)%Q.
Proof. eexists. split_and!; vm_compute; reflexivity. Qed.

(** A one-row image: the resized height [round(0.5)] is 0 and
    [cv2.resize] raises. *)
Example letterbox_one_row_raises :
  _letterbox 1 1280 640 32 = Raise Cv2Error
  /\ round_trip 1 1280 640 32 (0, 0)%Z (0, 0)%Q = Raise Cv2Error.
Proof. split; vm_compute; reflexivity. Qed.

(** * Further properties of the module *)

(** ** ShapeProjector: counts, group ids, errors, composition *)

Lemma exc_mapM_concat_length {A B} (f : A -> exc (list B)) (g : A -> nat) l r :
  (forall a bs, a ∈ l -> f a = Val bs -> length bs = g a) ->
  exc_mapM f l = Val r ->
  length (concat r) = sum_list (g <$> l).
Proof.
  intros Hg. rewrite exc_mapM_Val. intros Hall.
  induction Hall as [|a bs l r Ha _ IH]; simpl; [done |].
  rewrite length_app, (Hg a bs); [| left | done].
  rewrite IH; [done |]. intros a' bs' Hin. apply Hg. by right.
Qed.

Lemma exc_mapM_Raise {A B} (f : A -> exc B) (l : list A) (e : exn) :
  exc_mapM f l = Raise e -> exists a, a ∈ l /\ f a = Raise e.
Proof.
  induction l as [|a l IH]; simpl; [discriminate |].
  destruct (f a) as [b|e'] eqn:Ha.
  - destruct (exc_mapM f l) as [bs|e'']; [discriminate |].
    intros [= ->]. destruct IH as (a' & Hin & Hf); [done |].
    exists a'. split; [by right | done].
  - intros [= ->]. exists a. split; [left | done].
Qed.

Lemma exc_mapM_app {A B} (f : A -> exc B) (l1 l2 : list A) :
  exc_mapM f (l1 ++ l2)
  = (r1 ← exc_mapM f l1; r2 ← exc_mapM f l2; Val (r1 ++ r2)).
Proof.
  induction l1 as [|a l1 IH]; simpl.
  - exc_simpl. destruct (exc_mapM f l2); by exc_simpl.
  - destruct (f a) as [b|e]; [| done].
    rewrite IH. destruct (exc_mapM f l1) as [r1|e]; exc_simpl; [| done].
    destruct (exc_mapM f l2) as [r2|e]; by exc_simpl.
Qed.

Lemma exc_mapM_fmap {A B C} (f : B -> exc C) (g : A -> B) (l : list A) :
  exc_mapM f (g <$> l) = exc_mapM (fun a => f (g a)) l.
Proof.
  induction l as [|a l IH]; [done |].
  rewrite fmap_cons. cbn [exc_mapM]. by rewrite IH.
Qed.

Lemma exc_mapM_ext {A B} (f g : A -> exc B) (l : list A) :
  (forall a, f a = g a) -> exc_mapM f l = exc_mapM g l.
Proof.
  intros Hfg. induction l as [|a l IH]; simpl; [done |]. by rewrite Hfg, IH.
Qed.

Lemma enumerate_snd {A} (l : list A) : (enumerate l).*2 = l.
Proof. unfold enumerate. apply snd_zip. by rewrite length_seq. Qed.

Lemma enumerate_app {A} (l1 l2 : list A) :
  enumerate (l1 ++ l2)
  = enumerate l1
    ++ ((fun ia : nat * A => ((length l1 + ia.1)%nat, ia.2)) <$> enumerate l2).
Proof.
  apply list_eq. intros i. rewrite enumerate_lookup.
  destruct (decide (i < length l1)%nat) as [Hlt | Hge].
  - rewrite !lookup_app_l; [| by rewrite <- (enumerate_snd l1), length_fmap in Hlt
                            | done].
    by rewrite enumerate_lookup.
  - rewrite !lookup_app_r;
      [| unfold enumerate; rewrite length_zip_with, length_seq; lia | lia].
    rewrite list_lookup_fmap, enumerate_lookup.
    assert (length (enumerate l1) = length l1) as ->.
    { unfold enumerate. rewrite length_zip_with, length_seq. lia. }
    destruct (l2 !! (i - length l1)%nat); simpl; [| done].
    do 2 f_equal. lia.
Qed.

Lemma keypoint_shapes_length group j k bs :
  keypoint_shapes group (j, k) = Val bs ->
  length bs = if Qgtb (kconf k) 0 then 1%nat else 0%nat.
Proof.
  unfold keypoint_shapes, index. destruct (Qgtb (kconf k) 0).
  - destruct (COCO_KEYPOINTS !! j); exc_simpl; [| discriminate].
    by intros [= <-].
  - by intros [= <-].
Qed.

Lemma limb_shapes_length kpts group e bs :
  limb_shapes kpts group e = Val bs ->
  length bs = if limb_visible kpts e then 1%nat else 0%nat.
Proof.
  destruct e as [a b]. unfold limb_shapes, limb_visible, index. simpl.
  destruct (kpts !! a) as [p1|]; exc_simpl; [| discriminate].
  destruct (kpts !! b) as [p2|]; exc_simpl; [| discriminate].
  destruct (Qgtb (kconf p1) 0 && Qgtb (kconf p2) 0).
  - destruct (COCO_KEYPOINTS !! a); exc_simpl; [| discriminate].
    destruct (COCO_KEYPOINTS !! b); exc_simpl; [| discriminate].
    by intros [= <-].
  - by intros [= <-].
Qed.

Lemma pose_shapes_length start ds i kpts bs :
  pose_shapes start ds (i, kpts) = Val bs -> length bs = shape_count ds kpts.
Proof.
  unfold pose_shapes, shape_count. cbv zeta.
  destruct (exc_mapM _ (enumerate kpts)) as [pts|] eqn:Hpts; exc_simpl;
    [| discriminate].
  assert (Hp : length (concat pts) = visible_points kpts).
  { rewrite (exc_mapM_concat_length _
               (fun jk => if Qgtb (kconf jk.2) 0 then 1%nat else 0%nat) _ _
               ltac:(intros [j k] bs' _; apply keypoint_shapes_length) Hpts).
    unfold visible_points. rewrite <- (enumerate_snd kpts) at 2.
    by rewrite <- list_fmap_compose. }
  destruct (truthy ds).
  - destruct (exc_mapM (limb_shapes kpts (start + Z.of_nat i)) COCO_SKELETON)
      as [limbs|] eqn:Hl; exc_simpl; [| discriminate].
    intros [= <-]. rewrite length_app, Hp. f_equal.
    apply (exc_mapM_concat_length _ _ _ _
             ltac:(intros e bs' _; apply limb_shapes_length) Hl).
  - exc_simpl. intros [= <-]. rewrite app_nil_r, Hp. lia.
Qed.

(** The projector returns, for every pose, one point shape per keypoint of
    positive confidence and, when the skeleton is requested, one line shape
    per skeleton edge whose two endpoints have positive confidence; nothing
    else. *)
Theorem projected_shape_count keypoints scores start ds shapes :
  get_shapes_from_poses keypoints scores start ds = Val shapes ->
  length shapes = sum_list (shape_count ds <$> keypoints).
Proof.
  unfold get_shapes_from_poses.
  destruct (exc_mapM _ (enumerate keypoints)) as [per_pose|] eqn:Hp; exc_simpl;
    [| discriminate].
  intros [= <-].
  rewrite (exc_mapM_concat_length _ (fun ik => shape_count ds ik.2) _ _
             ltac:(intros [i kpts] bs _; apply pose_shapes_length) Hp).
  rewrite <- (enumerate_snd keypoints) at 2.
  by rewrite <- list_fmap_compose.
Qed.

Lemma projected_shape_count_witness :
  length faint_shapes = sum_list (shape_count (Some true) <$> [faint_pose])
  /\ sum_list (shape_count (Some true) <$> [faint_pose]) = 30%nat.
Proof.
  split.
  - apply (projected_shape_count [faint_pose] [9 # 10]%Q 7 (Some true)
             faint_shapes faint_run).
  - vm_compute. reflexivity.
Defined.

(** Every shape carries the group id [start_group_id + i] of a pose index
    [i] of the input, so group ids stay in
    [start_group_id .. start_group_id + len(keypoints) - 1] and shapes of
    different poses never share one. *)
Theorem projected_group_ids keypoints scores start ds shapes s :
  get_shapes_from_poses keypoints scores start ds = Val shapes ->
  s ∈ shapes ->
  exists i kpts,
    keypoints !! i = Some kpts
    /\ group_id s = start + Z.of_nat i
    /\ start <= group_id s < start + Z.of_nat (length keypoints)
    /\ pose_shape_spec (group_id s) ds kpts s.
Proof.
  intros Hrun Hs.
  apply (get_shapes_from_poses_elem _ _ _ _ _ _ Hrun) in Hs
    as (i & kpts & Hk & Hspec).
  pose proof (pose_shape_spec_group _ _ _ _ Hspec) as Hg.
  pose proof (lookup_lt_Some _ _ _ Hk) as Hlt.
  exists i, kpts. rewrite Hg. split_and!; [done | done | lia | lia | done].
Qed.

Lemma projected_group_ids_witness :
  exists i kpts,
    [faint_pose] !! i = Some kpts
    /\ group_id (point_shape 7 "left_eye" (mkKpt 1 2 (1 # 100))) = 7 + Z.of_nat i
    /\ 7 <= group_id (point_shape 7 "left_eye" (mkKpt 1 2 (1 # 100)))
       < 7 + Z.of_nat (length [faint_pose])
    /\ pose_shape_spec (group_id (point_shape 7 "left_eye" (mkKpt 1 2 (1 # 100))))
         (Some true) kpts (point_shape 7 "left_eye" (mkKpt 1 2 (1 # 100))).
Proof.
  apply (projected_group_ids [faint_pose] [9 # 10]%Q 7 (Some true) faint_shapes
           (point_shape 7 "left_eye" (mkKpt 1 2 (1 # 100))) faint_run).
  vm_compute. left.
Defined.

Lemma COCO_KEYPOINTS_lookup j :
  is_Some (COCO_KEYPOINTS !! j) <-> (j < 17)%nat.
Proof. rewrite lookup_lt_is_Some. reflexivity. Qed.

Lemma pose_shapes_projectable start ds i kpts :
  (exists bs, pose_shapes start ds (i, kpts) = Val bs) <-> projectable ds kpts.
Proof.
  unfold pose_shapes, projectable. cbv zeta. split.
  - intros [bs Hrun].
    destruct (exc_mapM _ (enumerate kpts)) as [pts|] eqn:Hpts; exc_simpl in Hrun;
      [| discriminate].
    split.
    + intros j k Hk%elem_of_enumerate Hpos.
      destruct (exc_mapM_elem _ _ _ _ Hpts Hk) as (b & _ & Hb).
      unfold keypoint_shapes, index in Hb.
      rewrite (proj2 (Qgtb_true _ _) Hpos) in Hb.
      apply COCO_KEYPOINTS_lookup.
      destruct (COCO_KEYPOINTS !! j); [by eexists | discriminate].
    + intros Hds. rewrite Hds in Hrun.
      destruct (exc_mapM (limb_shapes kpts (start + Z.of_nat i)) COCO_SKELETON)
        as [limbs|] eqn:Hl; [| discriminate].
      assert (Hin : (14, 16)%nat ∈ COCO_SKELETON)
        by (apply (bool_decide_unpack _); by vm_compute).
      destruct (exc_mapM_elem _ _ _ _ Hl Hin) as (b & _ & Hb).
      unfold limb_shapes, index in Hb.
      destruct (kpts !! 14%nat); exc_simpl in Hb; [| discriminate].
      destruct (kpts !! 16%nat) eqn:H16; exc_simpl in Hb; [| discriminate].
      apply lookup_lt_Some in H16. lia.
  - intros [Hpts Hlen].
    destruct (exc_mapM_total (keypoint_shapes (start + Z.of_nat i)) (enumerate kpts))
      as [pts ->].
    { apply Forall_forall. intros [j k] Hj%elem_of_enumerate.
      unfold keypoint_shapes, index.
      destruct (Qgtb (kconf k) 0) eqn:Hc; [| by eexists].
      apply Qgtb_true in Hc.
      destruct (proj2 (COCO_KEYPOINTS_lookup j) (Hpts j k Hj Hc)) as [name ->].
      by eexists. }
    exc_simpl. destruct (truthy ds); [| by eexists].
    destruct (exc_mapM_total (limb_shapes kpts (start + Z.of_nat i)) COCO_SKELETON)
      as [limbs ->]; [| by eexists].
    specialize (Hlen eq_refl).
    eapply Forall_impl; [apply COCO_SKELETON_bound |].
    intros [a b] [Ha Hb]. simpl in Ha, Hb. unfold limb_shapes, index.
    destruct (lookup_lt_is_Some_2 kpts a) as [p1 ->]; [lia |].
    destruct (lookup_lt_is_Some_2 kpts b) as [p2 ->]; [lia |].
    destruct (proj2 (COCO_KEYPOINTS_lookup a) Ha) as [n1 ->].
    destruct (proj2 (COCO_KEYPOINTS_lookup b) Hb) as [n2 ->].
    exc_simpl. destruct (_ && _); by eexists.
Qed.

Lemma get_shapes_from_poses_raises_IndexError keypoints scores start ds e :
  get_shapes_from_poses keypoints scores start ds = Raise e -> e = IndexError.
Proof.
  unfold get_shapes_from_poses.
  destruct (exc_mapM _ (enumerate keypoints)) as [|e'] eqn:Hp; exc_simpl;
    [discriminate |].
  intros [= ->]. apply exc_mapM_Raise in Hp as ([i kpts] & _ & Hp).
  unfold pose_shapes in Hp. cbv zeta in Hp.
  destruct (exc_mapM _ (enumerate kpts)) as [pts|e'] eqn:Hpts; exc_simpl in Hp.
  - destruct (truthy ds); [| discriminate].
    destruct (exc_mapM (limb_shapes kpts (start + Z.of_nat i)) COCO_SKELETON)
      as [limbs|e'] eqn:Hl; exc_simpl in Hp; [discriminate |].
    injection Hp as ->.
    apply exc_mapM_Raise in Hl as ([a b] & _ & Hl).
    unfold limb_shapes, index in Hl.
    destruct (kpts !! a); exc_simpl in Hl; [| congruence].
    destruct (kpts !! b); exc_simpl in Hl; [| congruence].
    destruct (_ && _); [| discriminate].
    destruct (COCO_KEYPOINTS !! a); exc_simpl in Hl; [| congruence].
    destruct (COCO_KEYPOINTS !! b); exc_simpl in Hl; [discriminate | congruence].
  - injection Hp as ->.
    apply exc_mapM_Raise in Hpts as ([j k] & _ & Hk).
    unfold keypoint_shapes, index in Hk.
    destruct (Qgtb _ _); [| discriminate].
    destruct (COCO_KEYPOINTS !! j); exc_simpl in Hk; [discriminate | congruence].
Qed.

Lemma get_shapes_from_poses_returns_iff keypoints scores start ds :
  Forall (projectable ds) keypoints <->
  exists shapes, get_shapes_from_poses keypoints scores start ds = Val shapes.
Proof.
  unfold get_shapes_from_poses. split.
  - intros Hall.
    destruct (exc_mapM_total (pose_shapes start ds) (enumerate keypoints))
      as [per_pose ->]; [| by eexists].
    apply Forall_forall. intros [i kpts] Hin%elem_of_enumerate.
    apply pose_shapes_projectable.
    eapply (proj1 (Forall_forall _ _) Hall), list_elem_of_lookup_2, Hin.
  - intros [shapes Hrun].
    destruct (exc_mapM _ (enumerate keypoints)) as [per_pose|] eqn:Hp;
      [| discriminate].
    apply Forall_forall. intros kpts [i Hi]%list_elem_of_lookup.
    apply elem_of_enumerate in Hi.
    destruct (exc_mapM_elem _ _ _ _ Hp Hi) as (bs & _ & Hbs).
    apply (pose_shapes_projectable start ds i). by exists bs.
Qed.

Lemma get_shapes_from_poses_unprojectable keypoints scores start ds :
  ~ Forall (projectable ds) keypoints ->
  get_shapes_from_poses keypoints scores start ds = Raise IndexError.
Proof.
  intros Hnot.
  destruct (get_shapes_from_poses keypoints scores start ds) as [shapes|e] eqn:Hrun.
  - exfalso. apply Hnot, (get_shapes_from_poses_returns_iff _ scores start).
    by exists shapes.
  - by rewrite (get_shapes_from_poses_raises_IndexError _ _ _ _ _ Hrun).
Qed.

(** The projector returns exactly when every pose is projectable; on any
    other input it raises [IndexError] (a pose with fewer than 17 keypoints
    when the skeleton is requested, or a keypoint of positive confidence
    beyond the 17 named joints), and no shape of any pose is returned. *)
Theorem projector_error_behaviour keypoints scores start ds :
  (Forall (projectable ds) keypoints <->
   exists shapes, get_shapes_from_poses keypoints scores start ds = Val shapes)
  /\ (~ Forall (projectable ds) keypoints ->
      get_shapes_from_poses keypoints scores start ds = Raise IndexError).
Proof.
  split.
  - apply get_shapes_from_poses_returns_iff.
  - apply get_shapes_from_poses_unprojectable.
Qed.

Lemma projector_error_behaviour_witness :
  get_shapes_from_poses [faint_pose; [mkKpt 1 1 1]] [] 0 (Some true)
  = Raise IndexError.
Proof.
  apply (proj2 (projector_error_behaviour [faint_pose; [mkKpt 1 1 1]] [] 0
                  (Some true))).
  intros H. apply Forall_cons in H as [_ H]. apply Forall_cons in H as [[_ H] _].
  specialize (H eq_refl). simpl in H. lia.
Defined.

Lemma pose_shapes_shift start ds n i kpts :
  pose_shapes start ds ((n + i)%nat, kpts)
  = pose_shapes (start + Z.of_nat n) ds (i, kpts).
Proof.
  unfold pose_shapes. cbv zeta.
  by replace (start + Z.of_nat (n + i)) with (start + Z.of_nat n + Z.of_nat i)
    by lia.
Qed.

(** Projecting a concatenation is projecting the two parts, the second one
    numbered from [start_group_id + len(first)]; an exception in either
    part is the exception of the whole. *)
Theorem projector_app keypoints1 keypoints2 scores scores1 scores2 start ds :
  get_shapes_from_poses (keypoints1 ++ keypoints2) scores start ds
  = (shapes1 ← get_shapes_from_poses keypoints1 scores1 start ds;
     shapes2 ← get_shapes_from_poses keypoints2 scores2
                 (start + Z.of_nat (length keypoints1)) ds;
     Val (shapes1 ++ shapes2)).
Proof.
  unfold get_shapes_from_poses.
  rewrite enumerate_app, exc_mapM_app, exc_mapM_fmap.
  rewrite (exc_mapM_ext _ (pose_shapes (start + Z.of_nat (length keypoints1)) ds))
    by (intros [i kpts]; apply pose_shapes_shift).
  destruct (exc_mapM _ (enumerate keypoints1)) as [r1|]; exc_simpl; [| done].
  destruct (exc_mapM _ (enumerate keypoints2)) as [r2|]; exc_simpl; [| done].
  by rewrite concat_app.
Qed.

(** ** BackendConfig: device and backend selection *)

Lemma rtmpose_configs_prefix name :
  name ∈ rtmpose_configs -> String.prefix "rtmpose" name = true.
Proof.
  unfold rtmpose_configs. rewrite !elem_of_cons, elem_of_nil.
  intros [-> | [-> | [-> | [-> | []]]]]; reflexivity.
Qed.

(** A constructed estimator runs on ["cpu"] or ["cuda"], and on ["cuda"]
    only when CUDA is available and ["cuda"] was asked for by the argument
    or, the argument being omitted or empty, by the configuration file; every
    other device name is replaced by ["cpu"]. *)
Theorem estimator_device w mn dev ct kt adv ds est :
  PoseEstimator_init w mn dev ct kt adv ds = Val est ->
  exists cfg,
    get_pose_estimation_config w = Val cfg
    /\ (device est = "cpu"%string \/ device est = "cuda"%string)
    /\ (device est = "cuda"%string <->
        cuda_is_available w = true
        /\ or_string dev (default "cpu"%string (cfg_device cfg)) = "cuda"%string).
Proof.
  unfold PoseEstimator_init.
  destruct (HAS_TORCH w); simpl; [| discriminate].
  destruct (get_pose_estimation_config w) as [cfg|]; exc_simpl; [| discriminate].
  intros Hrun. exists cfg. split; [done |].
  assert (Hdev : device est =
            if cuda_is_available w
               && bool_decide (or_string dev (default "cpu"%string (cfg_device cfg))
                               = "cuda"%string)
            then "cuda"%string else "cpu"%string).
  { destruct (negb _ && negb _ && negb _) in Hrun;
      match type of Hrun with
      | mbind _ ?m = _ => destruct m; exc_simpl in Hrun; [| discriminate]
      end; by injection Hrun as <-. }
  rewrite Hdev. destruct (cuda_is_available w); simpl.
  - case_bool_decide as Hc.
    + split; [by right |]. done.
    + split; [by left |]. split; [discriminate | by intros [_ ?]].
  - split; [by left |]. split; [discriminate | by intros [? _]].
Qed.

Lemma estimator_device_witness :
  exists cfg,
    get_pose_estimation_config one_person_world = Val cfg
    /\ (device default_estimator = "cpu"%string
        \/ device default_estimator = "cuda"%string)
    /\ (device default_estimator = "cuda"%string <->
        cuda_is_available one_person_world = true
        /\ or_string (Some "cuda"%string) (default "cpu"%string (cfg_device cfg))
           = "cuda"%string).
Proof.
  apply (estimator_device one_person_world None (Some "cuda"%string) None None
           None None default_estimator).
  vm_compute. reflexivity.
Defined.



(** ** DetectionReconciler: invariants of the box-guided KeypointRCNN loop *)

(** Induction principle of the loop: a property of the two result lists
    that survives appending one element to each holds of the result. *)
Lemma keypointrcnn_boxes_loop_inv (P : list Pose -> list Q -> Prop)
    w est image boxes :
  (forall kl sl k s, P kl sl -> P (kl ++ [k]) (sl ++ [s])) ->
  forall keypoints_list scores_list calls poses scores,
    P keypoints_list scores_list ->
    fst (keypointrcnn_boxes_loop w est image boxes keypoints_list scores_list calls)
    = Val (poses, scores) ->
    P poses scores.
Proof.
  intros Hstep.
  induction boxes as [|box rest IH]; intros kl sl calls poses scores Hkl; simpl.
  - by intros [= <- <-].
  - destruct (clamp_box image box) as [[[x1 y1] x2] y2]. cbv beta iota zeta.
    destruct (_ || _); [by apply IH |].
    destruct (keypointrcnn w (cvtColor_BGR2RGB (crop _ _ _ _ _)))
      as [[|inst insts]|e]; [| | discriminate].
    + destruct (bool_decide _); [| by apply IH].
      destruct (keypointrcnn w (cvtColor_BGR2RGB image))
        as [[|finst full]|e]; [by apply IH | | discriminate].
      destruct (best_match _ _) as [best_iou best_idx].
      destruct (_ && _); [| by apply IH].
      destruct (_ !! _) as [inst|]; [| discriminate].
      by apply IH, Hstep.
    + destruct (Qgeb _ _); [| by apply IH].
      by apply IH, Hstep.
Qed.

Lemma keypointrcnn_boxes_loop_count w est image boxes :
  forall keypoints_list scores_list calls poses scores,
    fst (keypointrcnn_boxes_loop w est image boxes keypoints_list scores_list calls)
    = Val (poses, scores) ->
    (length poses <= length keypoints_list + length boxes)%nat.
Proof.
  induction boxes as [|box rest IH]; intros kl sl calls poses scores; simpl.
  - intros [= <- <-]. lia.
  - destruct (clamp_box image box) as [[[x1 y1] x2] y2]. cbv beta iota zeta.
    assert (Hsame : forall c,
              fst (keypointrcnn_boxes_loop w est image rest kl sl c)
              = Val (poses, scores) ->
              (length poses <= length kl + S (length rest))%nat).
    { intros c Hc. apply IH in Hc. lia. }
    assert (Hmore : forall k s c,
              fst (keypointrcnn_boxes_loop w est image rest (kl ++ [k]) (sl ++ [s]) c)
              = Val (poses, scores) ->
              (length poses <= length kl + S (length rest))%nat).
    { intros k s c Hc. apply IH in Hc. rewrite length_app in Hc. simpl in Hc. lia. }
    destruct (_ || _); [apply Hsame |].
    destruct (keypointrcnn w (cvtColor_BGR2RGB (crop _ _ _ _ _)))
      as [[|inst insts]|e]; [| | discriminate].
    + destruct (bool_decide _); [| apply Hsame].
      destruct (keypointrcnn w (cvtColor_BGR2RGB image))
        as [[|finst full]|e]; [apply Hsame | | discriminate].
      destruct (best_match _ _) as [best_iou best_idx].
      destruct (_ && _); [| apply Hsame].
      destruct (_ !! _) as [inst|]; [apply Hmore | discriminate].
    + destruct (Qgeb _ _); [apply Hmore | apply Hsame].
Qed.

(** The box-guided KeypointRCNN path returns as many scores as poses, and
    at most one pose per box. *)
Theorem box_guided_at_most_one_pose_per_box w est image boxes poses scores :
  _detect_keypointrcnn_from_boxes w est image boxes = Val (poses, scores) ->
  length poses = length scores /\ (length poses <= length boxes)%nat.
Proof.
  unfold _detect_keypointrcnn_from_boxes, try_except.
  destruct (fst _) as [[p s]|] eqn:Hloop.
  - intros [= <- <-]. split.
    + apply (keypointrcnn_boxes_loop_inv (fun kl sl => length kl = length sl)
               w est image boxes) in Hloop; [done | | done].
      intros kl sl k s' H. rewrite !length_app. simpl. lia.
    + apply keypointrcnn_boxes_loop_count in Hloop. simpl in Hloop. lia.
  - intros [= <- <-]. simpl. split; [done | lia].
Qed.

Lemma box_guided_at_most_one_pose_per_box_witness :
  length sparse_box_result.1 = length sparse_box_result.2
  /\ (length sparse_box_result.1 <= length one_box)%nat.
Proof.
  apply (box_guided_at_most_one_pose_per_box sparse_world default_estimator
           (blank_image 480 640) one_box).
  vm_compute. reflexivity.
Defined.

Lemma clamp_box_bounds image box x1 y1 x2 y2 :
  clamp_box image box = (x1, y1, x2, y2) ->
  too_small (x1, y1, x2, y2) = false ->
  region_in_bounds image (RegionInference x1 y1 x2 y2).
Proof.
  destruct box as [[[bx1 by1] bx2] by2]. unfold clamp_box, too_small.
  intros [= <- <- <- <-]. rewrite orb_false_iff, !Z.ltb_ge. simpl. lia.
Qed.

(** Every region handed to the model lies inside the image, is at least 10
    pixels wide and high, and stops before the last column and row. *)
Theorem region_inferences_in_bounds w est image boxes c :
  c ∈ keypointrcnn_from_boxes_calls w est image boxes ->
  region_in_bounds image c.
Proof.
  unfold keypointrcnn_from_boxes_calls.
  assert (Hgen : forall kl sl calls,
            Forall (region_in_bounds image) calls ->
            Forall (region_in_bounds image)
              (snd (keypointrcnn_boxes_loop w est image boxes kl sl calls))).
  { induction boxes as [|box rest IH]; intros kl sl calls Hcalls; simpl; [done |].
    destruct (clamp_box image box) as [[[x1 y1] x2] y2] eqn:Hclamp.
    cbv beta iota zeta.
    destruct (_ || _) eqn:Hsmall; [by apply IH |].
    assert (Hreg : Forall (region_in_bounds image)
                     (calls ++ [RegionInference x1 y1 x2 y2])).
    { apply Forall_app. split; [done |]. constructor; [| constructor].
      by apply (clamp_box_bounds image box). }
    assert (Hfull : Forall (region_in_bounds image)
                      ((calls ++ [RegionInference x1 y1 x2 y2]) ++ [FullInference])).
    { apply Forall_app. split; [done |]. by repeat constructor. }
    destruct (keypointrcnn w (cvtColor_BGR2RGB (crop _ _ _ _ _)))
      as [[|inst insts]|e]; [| | done].
    - destruct (bool_decide _); [| by apply IH].
      destruct (keypointrcnn w (cvtColor_BGR2RGB image))
        as [[|finst full]|e]; [by apply IH | | done].
      destruct (best_match _ _) as [best_iou best_idx].
      destruct (_ && _); [| by apply IH].
      destruct (_ !! _) as [inst|]; [by apply IH | done].
    - destruct (Qgeb _ _); by apply IH. }
  intros Hc. eapply (proj1 (Forall_forall _ _) (Hgen [] [] [] (List.Forall_nil _))), Hc.
Qed.

Lemma region_inferences_in_bounds_witness :
  region_in_bounds (blank_image 200 200) (RegionInference 100 0 190 100).
Proof.
  apply (region_inferences_in_bounds unmatched_world default_estimator
           (blank_image 200 200) [left_box; right_box]).
  vm_compute. do 2 right. left.
Defined.

(** Boxes that degenerate to less than 10 pixels a side after clamping are
    skipped without any inference: when all of them do, the box-guided
    KeypointRCNN and YOLOv7 paths return no pose and call no model. *)
Theorem degenerate_boxes_skipped w est image boxes :
  Forall (fun box => too_small (clamp_box image box) = true) boxes ->
  keypointrcnn_from_boxes_calls w est image boxes = []
  /\ _detect_keypointrcnn_from_boxes w est image boxes = Val ([], [])
  /\ _detect_yolov7_pose_from_boxes w est image boxes = Val ([], []).
Proof.
  intros Hall.
  assert (Hk : forall kl sl calls,
            keypointrcnn_boxes_loop w est image boxes kl sl calls
            = (Val (kl, sl), calls)).
  { induction Hall as [|box rest Hsmall _ IH]; intros kl sl calls; [done |].
    cbn [keypointrcnn_boxes_loop].
    destruct (clamp_box image box) as [[[x1 y1] x2] y2]. cbv beta iota zeta.
    rewrite Hsmall. apply IH. }
  assert (Hy : forall kl sl,
            yolov7_boxes_loop w image boxes kl sl = Val (kl, sl)).
  { clear Hk. induction Hall as [|box rest Hsmall _ IH]; intros kl sl; [done |].
    cbn [yolov7_boxes_loop].
    destruct (clamp_box image box) as [[[x1 y1] x2] y2]. cbv beta iota zeta.
    rewrite Hsmall. apply IH. }
  unfold keypointrcnn_from_boxes_calls, _detect_keypointrcnn_from_boxes,
    _detect_yolov7_pose_from_boxes.
  by rewrite Hk, Hy.
Qed.

Lemma degenerate_boxes_skipped_witness :
  keypointrcnn_from_boxes_calls one_person_world default_estimator
    (blank_image 480 640) [ (630, 10, 700, 200)%Q; (5, 5, 14, 300)%Q ] = []
  /\ _detect_keypointrcnn_from_boxes one_person_world default_estimator
       (blank_image 480 640) [ (630, 10, 700, 200)%Q; (5, 5, 14, 300)%Q ]
     = Val ([], [])
  /\ _detect_yolov7_pose_from_boxes one_person_world default_estimator
       (blank_image 480 640) [ (630, 10, 700, 200)%Q; (5, 5, 14, 300)%Q ]
     = Val ([], []).
Proof.
  apply (degenerate_boxes_skipped one_person_world default_estimator
           (blank_image 480 640)).
  repeat constructor.
Defined.



Lemma keypointrcnn_boxes_loop_raises w est image boxes box x1 y1 x2 y2 e :
  box ∈ boxes ->
  clamp_box image box = (x1, y1, x2, y2) ->
  too_small (x1, y1, x2, y2) = false ->
  keypointrcnn w (cvtColor_BGR2RGB (crop image y1 y2 x1 x2)) = Raise e ->
  forall kl sl calls,
    exists e',
      fst (keypointrcnn_boxes_loop w est image boxes kl sl calls) = Raise e'.
Proof.
  intros Hin Hclamp Hsmall Hraise.
  induction boxes as [|b rest IH]; [inversion Hin |].
  intros kl sl calls. cbn [keypointrcnn_boxes_loop].
  apply elem_of_cons in Hin as [<- | Hrest].
  - rewrite Hclamp. cbv beta iota zeta. rewrite Hsmall, Hraise. eexists; reflexivity.
  - specialize (IH Hrest).
    destruct (clamp_box image b) as [[[bx1 by1] bx2] by2]. cbv beta iota zeta.
    destruct (too_small (bx1, by1, bx2, by2)); [apply IH |].
    destruct (keypointrcnn w (cvtColor_BGR2RGB (crop image by1 by2 bx1 bx2)))
      as [[|inst insts]|e0]; [| | eexists; reflexivity].
    + destruct (bool_decide _); [| apply IH].
      destruct (keypointrcnn w (cvtColor_BGR2RGB image))
        as [[|finst full]|e0]; [apply IH | | eexists; reflexivity].
      destruct (best_match _ _) as [best_iou best_idx].
      destruct (_ && _); [| apply IH].
      destruct (_ !! _) as [inst|]; [apply IH | eexists; reflexivity].
    + destruct (Qgeb _ _); apply IH.
Qed.

(** One failing region inference empties the whole result: if the model
    raises on the crop of any usable box, the box-guided KeypointRCNN path
    returns no pose at all, poses found in other boxes included. *)
Theorem box_failure_discards_all_poses w est image boxes box x1 y1 x2 y2 e :
  box ∈ boxes ->
  clamp_box image box = (x1, y1, x2, y2) ->
  too_small (x1, y1, x2, y2) = false ->
  keypointrcnn w (cvtColor_BGR2RGB (crop image y1 y2 x1 x2)) = Raise e ->
  _detect_keypointrcnn_from_boxes w est image boxes = Val ([], []).
Proof.
  intros Hin Hclamp Hsmall Hraise.
  destruct (keypointrcnn_boxes_loop_raises w est image boxes box x1 y1 x2 y2 e
              Hin Hclamp Hsmall Hraise [] [] []) as [e' He'].
  unfold _detect_keypointrcnn_from_boxes. by rewrite He'.
Qed.

Lemma box_failure_discards_all_poses_witness :
  _detect_keypointrcnn_from_boxes failing_crop_world default_estimator
    (blank_image 200 200) [left_box; right_box] = Val ([], [])
  /\ _detect_keypointrcnn_from_boxes failing_crop_world default_estimator
       (blank_image 200 200) [left_box]
     = Val ([shift_keypoints 0 0 (person_keypoints 1)], [ (95 # 100)%Q ]).
Proof.
  split.
  - apply (box_failure_discards_all_poses failing_crop_world default_estimator
             (blank_image 200 200) [left_box; right_box] right_box
             100 0 190 100 RuntimeError).
    + right. left.
    + reflexivity.
    + reflexivity.
    + reflexivity.
  - vm_compute. reflexivity.
Defined.

(** ** ResultFilter on the full-image paths: cap, order, scores *)

Lemma len_ge_spec {A} (l : list A) (m : Z) :
  len_ge l (inject_Z m) = true <-> m <= Z.of_nat (length l).
Proof. unfold len_ge. rewrite Qgeb_true, <- Zle_Qle. reflexivity. Qed.

Lemma keypointrcnn_collect_take est m instances :
  let n := Z.to_nat (Z.max 1 m) in
  forall keypoints_list scores_list,
    (length keypoints_list < n)%nat ->
    keypointrcnn_collect est (inject_Z m)
      (dict_get (advanced_params est) "min_keypoints" 5)
      instances keypoints_list scores_list
    = let kept :=
        take (n - length keypoints_list)
          (List.filter
             (fun ks : Pose * Q =>
                Qgeb (inject_Z (visible_keypoints (keypoint_threshold est) ks.1))
                     (dict_get (advanced_params est) "min_keypoints" 5))
             (map (fun inst => (map convert_keypoint (ikeypoints inst), iscore inst))
                  instances)) in
      (keypoints_list ++ kept.*1, scores_list ++ kept.*2).
Proof.
  intros n. induction instances as [|inst rest IH]; intros kl sl Hlen.
  - simpl. rewrite take_nil. simpl. by rewrite !app_nil_r.
  - cbn [keypointrcnn_collect map List.filter fst snd].
    destruct (Qgeb _ _) eqn:Hvis; [| by apply IH].
    destruct (len_ge _ _) eqn:Hcap.
    + apply len_ge_spec in Hcap. rewrite length_app in Hcap. simpl in Hcap.
      assert (n - length kl = 1)%nat as -> by lia.
      cbv zeta. simpl. reflexivity.
    + assert (~ m <= Z.of_nat (length (kl ++ [map convert_keypoint (ikeypoints inst)])))
        as Hno by (rewrite <- len_ge_spec; congruence).
      rewrite length_app in Hno. simpl in Hno.
      rewrite IH by (rewrite length_app; simpl; lia).
      cbv zeta. rewrite length_app. simpl.
      destruct (n - length kl)%nat as [|k] eqn:Hk; [lia |].
      replace (n - (length kl + 1))%nat with k by lia.
      simpl. by rewrite <- !app_assoc.
Qed.

(** The full-image KeypointRCNN path keeps, in the order of the
    prediction, the first [max_poses] instances that pass the score mask
    and the visible-keypoint count; a [max_poses] of 0 or less still keeps
    the first one. *)
Theorem full_image_cap_keeps_first w est image predictions m :
  keypointrcnn w (cvtColor_BGR2RGB image) = Val predictions ->
  dict_get (advanced_params est) "max_poses" 20 = inject_Z m ->
  _detect_keypointrcnn w est image
  = Val (let kept := take (Z.to_nat (Z.max 1 m))
                          (keypointrcnn_candidates est predictions) in
         (kept.*1, kept.*2)).
Proof.
  intros Hpred Hmax. unfold _detect_keypointrcnn. rewrite Hpred. exc_simpl.
  rewrite Hmax, keypointrcnn_collect_take by (simpl; lia).
  cbv zeta. simpl. by rewrite Nat.sub_0_r.
Qed.

Lemma full_image_cap_keeps_first_witness :
  _detect_keypointrcnn mixed_world default_estimator (blank_image 480 640)
  = Val (let kept := take (Z.to_nat (Z.max 1 20))
                          (keypointrcnn_candidates default_estimator
                             [sparse_person; person]) in
         (kept.*1, kept.*2))
  /\ _detect_keypointrcnn mixed_world
       {| model_name := KEYPOINTRCNN; conf_threshold := 1 # 2; device := "cpu";
          keypoint_threshold := 2 # 10;
          advanced_params := {[ "max_poses"%string := 0%Q ]};
          draw_skeleton := true; is_rtmpose := false; is_keypointrcnn := true |}
       (blank_image 480 640)
     = Val ([map convert_keypoint (person_keypoints 1)], [ (95 # 100)%Q ]).
Proof.
  split.
  - apply (full_image_cap_keeps_first mixed_world default_estimator
             (blank_image 480 640) [sparse_person; person] 20); reflexivity.
  - rewrite (full_image_cap_keeps_first mixed_world _ (blank_image 480 640)
               [sparse_person; person] 0 eq_refl); [| vm_compute; reflexivity].
    vm_compute. reflexivity.
Defined.

Lemma keypointrcnn_collect_scores est max_poses min_keypoints instances :
  Forall (fun inst => (conf_threshold est <= iscore inst)%Q) instances ->
  forall keypoints_list scores_list,
    length keypoints_list = length scores_list ->
    Forall (fun s => (conf_threshold est <= s)%Q) scores_list ->
    let r := keypointrcnn_collect est max_poses min_keypoints instances
               keypoints_list scores_list in
    length r.1 = length r.2
    /\ Forall (fun s => (conf_threshold est <= s)%Q) r.2.
Proof.
  induction 1 as [|inst rest Hinst _ IH]; intros kl sl Hlen Hsl; simpl; [done |].
  destruct (Qgeb _ _); [| by apply IH].
  assert (length (kl ++ [map convert_keypoint (ikeypoints inst)])
          = length (sl ++ [iscore inst])) as Hlen'
    by (rewrite !length_app; simpl; lia).
  assert (Forall (fun s => (conf_threshold est <= s)%Q) (sl ++ [iscore inst]))
    as Hsl' by (apply Forall_app; split; [done | by repeat constructor]).
  destruct (len_ge _ _); [done | by apply IH].
Qed.

Lemma rtmpose_collect_scores est max_poses min_keypoints zipped :
  forall valid_poses valid_scores poses scores,
    length valid_poses = length valid_scores ->
    Forall (fun s => (conf_threshold est <= s)%Q) valid_scores ->
    rtmpose_collect est max_poses min_keypoints zipped valid_poses valid_scores
    = Val (poses, scores) ->
    length poses = length scores
    /\ Forall (fun s => (conf_threshold est <= s)%Q) scores.
Proof.
  induction zipped as [|[rows score] rest IH]; intros vp vs poses scores Hlen Hvs;
    simpl.
  - by intros [= <- <-].
  - destruct (exc_mapM unpack3 rows) as [kpts|]; exc_simpl; [| discriminate].
    destruct (Qgeb (inject_Z _) _); simpl; [| by apply IH].
    destruct (Qgeb score _) eqn:Hscore; simpl; [| by apply IH].
    apply Qgeb_true in Hscore.
    assert (length (vp ++ [kpts]) = length (vs ++ [score])) as Hlen'
      by (rewrite !length_app; simpl; lia).
    assert (Forall (fun s => (conf_threshold est <= s)%Q) (vs ++ [score]))
      as Hvs' by (apply Forall_app; split; [done | by repeat constructor]).
    destruct (len_ge _ _); [by intros [= <- <-] | by apply IH].
Qed.

(** On the full-image KeypointRCNN and RTMPose paths the two returned lists
    have the same length and every returned instance score reaches the
    confidence threshold. *)
Theorem full_image_scores_reach_threshold w est image poses scores :
  (_detect_keypointrcnn w est image = Val (poses, scores) ->
   length poses = length scores
   /\ Forall (fun s => (conf_threshold est <= s)%Q) scores)
  /\ (_detect_rtmpose w est image = Val (poses, scores) ->
      length poses = length scores
      /\ Forall (fun s => (conf_threshold est <= s)%Q) scores).
Proof.
  split.
  - unfold _detect_keypointrcnn.
    destruct (keypointrcnn w _) as [predictions|]; exc_simpl; [| discriminate].
    intros [= Hrun].
    pose proof (keypointrcnn_collect_scores est
                  (dict_get (advanced_params est) "max_poses" 20)
                  (dict_get (advanced_params est) "min_keypoints" 5)
                  (List.filter (fun inst => Qgeb (iscore inst) (conf_threshold est))
                               predictions)) as H.
    assert (Hmask : Forall (fun inst => (conf_threshold est <= iscore inst)%Q)
              (List.filter (fun inst => Qgeb (iscore inst) (conf_threshold est))
                           predictions)).
    { apply List.Forall_forall. intros inst [_ Hs]%List.filter_In.
      by apply Qgeb_true. }
    specialize (H Hmask [] [] eq_refl (List.Forall_nil _)).
    cbv zeta in H. rewrite Hrun in H. exact H.
  - unfold _detect_rtmpose, try_except.
    destruct (rtmpose_full w image) as [[keypoints sc]|]; exc_simpl.
    + destruct (rtmpose_collect _ _ _ _ _ _) as [[p s]|] eqn:Hc.
      * intros [= <- <-].
        apply (rtmpose_collect_scores est _ _ _ [] [] p s eq_refl
                 (List.Forall_nil _) Hc).
      * by intros [= <- <-].
    + by intros [= <- <-].
Qed.

Lemma full_image_scores_reach_threshold_witness :
  length mixed_full_result.1 = length mixed_full_result.2
  /\ Forall (fun s => (conf_threshold default_estimator <= s)%Q)
            mixed_full_result.2.
Proof.
  apply (proj1 (full_image_scores_reach_threshold mixed_world default_estimator
                  (blank_image 480 640) mixed_full_result.1 mixed_full_result.2)).
  vm_compute. reflexivity.
Defined.

(** ** RTMPose rows *)

Lemma unpack3_rows_raise rows row :
  row ∈ rows -> length row <> 3%nat ->
  exists e, exc_mapM unpack3 rows = Raise e.
Proof.
  induction rows as [|r rows IH]; intros Hin Hlen; [inversion Hin |].
  simpl. destruct (unpack3 r) as [k|e] eqn:Hr; [| by eexists].
  apply elem_of_cons in Hin as [-> | Hin].
  - exfalso. unfold unpack3 in Hr.
    destruct r as [|? [|? [|? [|? ?]]]]; try discriminate. by apply Hlen.
  - destruct (IH Hin Hlen) as [e ->]. by eexists.
Qed.

(** The full-image RTMPose path unpacks every keypoint row as three values:
    when a row of the first instance has another length (two-value [(x, y)]
    rows, for one), the [ValueError] is swallowed and the path returns no
    pose at all. *)
Theorem rtmpose_rows_of_other_length_give_nothing
    w est image rows keypoints score scores row :
  rtmpose_full w image = Val (rows :: keypoints, score :: scores) ->
  row ∈ rows -> length row <> 3%nat ->
  _detect_rtmpose w est image = Val ([], []).
Proof.
  intros Hfull Hin Hlen. unfold _detect_rtmpose. rewrite Hfull. exc_simpl.
  cbn [zip_with rtmpose_collect].
  destruct (unpack3_rows_raise rows row Hin Hlen) as [e ->]. reflexivity.
Qed.

Lemma rtmpose_rows_of_other_length_give_nothing_witness :
  _detect_rtmpose xy_rows_world default_estimator (blank_image 480 640)
  = Val ([], []).
Proof.
  apply (rtmpose_rows_of_other_length_give_nothing xy_rows_world
           default_estimator (blank_image 480 640)
           [ [10; 20]; [30; 40] ]%Q [] (9 # 10)%Q [] [10; 20]%Q eq_refl).
  - left.
  - discriminate.
Defined.

(** ** PoseEstimationFacade: fallbacks of [estimate_poses] *)

(** Without usable boxes [estimate_poses] is [detect_poses]: when no box
    is given, when box use is switched off, or when the box-guided
    detection finds no pose, the result is that of the full-image entry
    point, numbered from the first box identifier when there is one and
    from [start_group_id] otherwise. *)
Theorem estimate_without_box_poses_is_detect
    w image mn ct dev boxes ids use kt adv start ds :
  (boxes = None \/ boxes = Some [] \/ use = Some false
   \/ exists l, boxes = Some l
        /\ forall est, PoseEstimator_init w mn dev ct kt adv ds = Val est ->
             exists scores,
               PoseEstimator_detect_poses_from_boxes w est image l
               = Val ([], scores)) ->
  estimate_poses w image mn ct dev boxes ids use kt adv start ds
  = detect_poses w image mn dev ct kt adv (first_box_id ids start) ds.
Proof.
  intros Hcase. unfold estimate_poses, detect_poses.
  destruct (PoseEstimator_init w mn dev ct kt adv ds) as [est|e] eqn:Hinit;
    exc_simpl; [| done].
  assert (Hbox :
    match boxes with
    | Some (box :: boxes') =>
        if default true use
        then PoseEstimator_detect_poses_from_boxes w est image (box :: boxes')
        else Val ([], [])
    | _ => Val ([], [])
    end = Val ([], [])
    \/ exists scores,
        match boxes with
        | Some (box :: boxes') =>
            if default true use
            then PoseEstimator_detect_poses_from_boxes w est image (box :: boxes')
            else Val ([], [])
        | _ => Val ([], [])
        end = Val ([], scores)).
  { destruct Hcase as [-> | [-> | [-> | (l & -> & Hl)]]].
    - by left.
    - by left.
    - destruct boxes as [[|b bs]|]; by left.
    - destruct (Hl est eq_refl) as [scores Hs].
      destruct l as [|b bs]; [by left |].
      destruct (default true use); [right; by exists scores | by left]. }
  destruct Hbox as [-> | [scores ->]]; exc_simpl;
    (destruct (PoseEstimator_detect_poses w est image) as [[k s]|]; by exc_simpl).
Qed.

Lemma estimate_without_box_poses_is_detect_witness :
  estimate_poses one_person_world (blank_image 480 640) None None None
    (Some one_box) (Some [Some 7]) (Some false) None None 0 (Some true)
  = detect_poses one_person_world (blank_image 480 640) None None None None None
      (first_box_id (Some [Some 7]) 0) (Some true).
Proof.
  apply (estimate_without_box_poses_is_detect one_person_world
           (blank_image 480 640) None None None (Some one_box) (Some [Some 7])
           (Some false) None None 0 (Some true)).
  right. right. left. reflexivity.
Defined.

(** One pose the projector cannot handle costs the whole result: when the
    detection returns a pose that is not projectable, [detect_poses]
    returns the empty list, the shapes of the other poses included. *)
Theorem unprojectable_pose_empties_result
    w image mn dev ct kt adv start ds est keypoints scores :
  PoseEstimator_init w mn dev ct kt adv ds = Val est ->
  PoseEstimator_detect_poses w est image = Val (keypoints, scores) ->
  ~ Forall (projectable ds) keypoints ->
  detect_poses w image mn dev ct kt adv start ds = Val [].
Proof.
  intros Hinit Hdet Hnot. unfold detect_poses.
  rewrite Hinit. exc_simpl. rewrite Hdet. exc_simpl.
  by rewrite get_shapes_from_poses_unprojectable.
Qed.

Lemma unprojectable_pose_empties_result_witness :
  detect_poses short_world (blank_image 480 640) None None None None
    (Some {[ "min_keypoints"%string := 1%Q ]}) 0 (Some true) = Val []
  /\ exists shapes,
       detect_poses short_world (blank_image 480 640) None None None None
         (Some {[ "min_keypoints"%string := 1%Q ]}) 0 (Some false) = Val shapes
       /\ length shapes = 20%nat.
Proof.
  split.
  - apply (unprojectable_pose_empties_result short_world (blank_image 480 640)
             None None None None (Some {[ "min_keypoints"%string := 1%Q ]}) 0
             (Some true) lenient_estimator
             [map convert_keypoint (person_keypoints 1);
              map convert_keypoint (ikeypoints short_person)]
             [ (95 # 100)%Q; (9 # 10)%Q ]).
    + vm_compute. reflexivity.
    + vm_compute. reflexivity.
    + intros H. apply Forall_cons in H as [_ H].
      apply Forall_cons in H as [[_ H] _].
      specialize (H eq_refl). simpl in H. lia.
  - eexists. split; vm_compute; reflexivity.
Defined.

(** ** IoU *)

Lemma Qmaxq_ge (a b : Q) : (a <= Qmaxq a b /\ b <= Qmaxq a b)%Q.
Proof.
  unfold Qmaxq. destruct (Qle_bool a b) eqn:E.
  - apply Qle_bool_iff in E. lra.
  - assert (~ (a <= b)%Q) by (rewrite <- Qle_bool_iff; congruence). lra.
Qed.

Lemma Qminq_le (a b : Q) : (Qminq a b <= a /\ Qminq a b <= b)%Q.
Proof.
  unfold Qminq. destruct (Qle_bool a b) eqn:E.
  - apply Qle_bool_iff in E. lra.
  - assert (~ (a <= b)%Q) by (rewrite <- Qle_bool_iff; congruence). lra.
Qed.

Lemma iou_range b p : (0 <= iou b p <= 1)%Q.
Proof.
  unfold iou, iou_step.
  destruct b as [[[x1 y1] x2] y2], p as [[[px1 py1] px2] py2].
  cbv zeta. cbn [fst].
  destruct (Qgtb _ _) eqn:Hx; cbn [andb fst]; [| lra].
  destruct (Qgtb (Qminq (inject_Z y2) py2) _) eqn:Hy; cbn [fst]; [| lra].
  apply Qgtb_true in Hx, Hy.
  destruct (Qgtb _ 0) eqn:Hpos; cbn [fst]; [| lra].
  clear Hpos.
  pose proof (Qmaxq_ge (inject_Z x1) px1) as [Hx1 Hpx1].
  pose proof (Qmaxq_ge (inject_Z y1) py1) as [Hy1 Hpy1].
  pose proof (Qminq_le (inject_Z x2) px2) as [Hx2 Hpx2].
  pose proof (Qminq_le (inject_Z y2) py2) as [Hy2 Hpy2].
  assert (HA' : (inject_Z ((x2 - x1) * (y2 - y1))
                 == (inject_Z x2 - inject_Z x1) * (inject_Z y2 - inject_Z y1))%Q)
    by (rewrite inject_Z_mult, !inject_Z_sub; reflexivity).
  set (A := inject_Z ((x2 - x1) * (y2 - y1))) in *.
  set (ix1 := Qmaxq (inject_Z x1) px1) in *.
  set (iy1 := Qmaxq (inject_Z y1) py1) in *.
  set (ix2 := Qminq (inject_Z x2) px2) in *.
  set (iy2 := Qminq (inject_Z y2) py2) in *.
  set (I := ((ix2 - ix1) * (iy2 - iy1))%Q) in *.
  set (B := ((px2 - px1) * (py2 - py1))%Q) in *.
  assert (HI : (0 < I)%Q) by (unfold I; nra).
  assert (HA : (I <= A)%Q) by (unfold I; nra).
  assert (HB : (I <= B)%Q) by (unfold I, B; nra).
  split.
  - apply Qle_shift_div_l; lra.
  - apply Qle_shift_div_r; lra.
Qed.


(** A box that coincides with a predicted box has IoU 1 with it. *)
Lemma iou_self x1 y1 x2 y2 :
  x1 < x2 -> y1 < y2 ->
  (iou (x1, y1, x2, y2)
       (inject_Z x1, inject_Z y1, inject_Z x2, inject_Z y2) == 1)%Q.
Proof.
  intros Hx Hy.
  pose proof (iou_range (x1, y1, x2, y2)
                (inject_Z x1, inject_Z y1, inject_Z x2, inject_Z y2)) as Hrange.
  unfold iou, iou_step in *. cbv zeta in *. cbn [fst] in *.
  assert (HxQ : (inject_Z x1 < inject_Z x2)%Q) by (by rewrite <- Zlt_Qlt).
  assert (HyQ : (inject_Z y1 < inject_Z y2)%Q) by (by rewrite <- Zlt_Qlt).
  assert (HA' : (inject_Z ((x2 - x1) * (y2 - y1))
                 == (inject_Z x2 - inject_Z x1) * (inject_Z y2 - inject_Z y1))%Q)
    by (rewrite inject_Z_mult, !inject_Z_sub; reflexivity).
  unfold Qmaxq, Qminq in *.
  rewrite !(proj2 (Qle_bool_iff _ _)) in * by lra.
  rewrite !(proj2 (Qgtb_true _ _)) in * by lra. cbn [andb] in *.
  set (A := inject_Z ((x2 - x1) * (y2 - y1))) in *.
  set (I := ((inject_Z x2 - inject_Z x1) * (inject_Z y2 - inject_Z y1))%Q) in *.
  assert (HI : (0 < I)%Q) by (unfold I; nra).
  assert (Heq : ((I / (A + I - I)) == 1)%Q) by (rewrite HA'; field; lra).
  destruct (Qgtb _ 0) eqn:Hpos; cbn [fst] in *.
  - exact Heq.
  - apply Qgtb_false in Hpos. rewrite Heq in Hpos. lra.
Qed.

(** ** GeometryTransform: the canvas *)

(** [round] of a value strictly within half a unit of an integer is that
    integer. *)
Lemma py_round_unique (q : Q) (m : Z) :
  (inject_Z m - (1 # 2) < q < inject_Z m + (1 # 2))%Q -> py_round q = m.
Proof.
  intros [Hlo Hhi]. pose proof (py_round_near q) as [Hn1 Hn2].
  assert (H1 : (inject_Z (py_round q) < inject_Z (m + 1))%Q).
  { rewrite inject_Z_plus. change (inject_Z 1) with 1%Q. lra. }
  assert (H2 : (inject_Z (m - 1) < inject_Z (py_round q))%Q).
  { rewrite inject_Z_sub. change (inject_Z 1) with 1%Q. lra. }
  rewrite <- Zlt_Qlt in H1, H2. lia.
Qed.

(** Splitting a padding of [n] pixels: [round(n/2 - 0.1)] before and
    [round(n/2 + 0.1)] after add up to [n] and differ by at most one. *)
Lemma padding_split (n : Z) :
  py_round (inject_Z n / 2 - (1 # 10)) = n / 2
  /\ py_round (inject_Z n / 2 + (1 # 10)) = n - n / 2.
Proof.
  pose proof (Z.div_mod n 2 ltac:(lia)) as Hdm.
  pose proof (Z.mod_pos_bound n 2 ltac:(lia)) as Hm.
  assert (Hq : (inject_Z n == 2 * inject_Z (n / 2) + inject_Z (n mod 2))%Q).
  { rewrite Hdm at 1. rewrite inject_Z_plus, inject_Z_mult. reflexivity. }
  assert (Hhalf : (inject_Z n / 2
                   == inject_Z (n / 2) + inject_Z (n mod 2) * (1 # 2))%Q)
    by (rewrite Hq; field).
  assert (Hcase : n mod 2 = 0 \/ n mod 2 = 1) by lia.
  split; apply py_round_unique.
  - rewrite Hhalf.
    destruct Hcase as [-> | ->];
      [change (inject_Z 0) with 0%Q | change (inject_Z 1) with 1%Q]; lra.
  - assert (Hsub : (inject_Z (n - n / 2)
                    == inject_Z (n / 2) + inject_Z (n mod 2))%Q).
    { rewrite inject_Z_sub, Hq. ring. }
    rewrite Hsub, Hhalf.
    destruct Hcase as [-> | ->];
      [change (inject_Z 0) with 0%Q | change (inject_Z 1) with 1%Q]; lra.
Qed.

(** The geometry fits the canvas: the resized image fits, its longer side
    fills it, and each padding is split into two non-negative parts that
    add up to the free space and differ by at most one pixel. *)
Lemma letterbox_geometry_canvas (h w target stride : Z) :
  0 < h -> 0 < w -> 0 < target ->
  let lb := letterbox_geometry h w target stride in
  fst (new_unpad lb) + left lb + right lb = target
  /\ snd (new_unpad lb) + top lb + bottom lb = target
  /\ 0 <= left lb <= right lb /\ right lb <= left lb + 1
  /\ 0 <= top lb <= bottom lb /\ bottom lb <= top lb + 1
  /\ (h <= w -> fst (new_unpad lb) = target)
  /\ (w <= h -> snd (new_unpad lb) = target).
Proof.
  intros Hh Hw Ht.
  assert (HhQ : (0 < inject_Z h)%Q) by (rewrite <- (Zlt_Qlt 0); lia).
  assert (HwQ : (0 < inject_Z w)%Q) by (rewrite <- (Zlt_Qlt 0); lia).
  assert (HtQ : (0 < inject_Z target)%Q) by (rewrite <- (Zlt_Qlt 0); lia).
  unfold letterbox_geometry. cbv zeta. cbn [fst snd new_unpad left right top bottom].
  set (r := Qminq (inject_Z target / inject_Z h) (inject_Z target / inject_Z w)).
  pose proof (Qminq_le (inject_Z target / inject_Z h)
                       (inject_Z target / inject_Z w)) as [Hrh Hrw]. fold r in Hrh, Hrw.
  assert (Hwr : (inject_Z w * r <= inject_Z target)%Q).
  { assert ((inject_Z w * (inject_Z target / inject_Z w) == inject_Z target)%Q)
      by (field; lra). nra. }
  assert (Hhr : (inject_Z h * r <= inject_Z target)%Q).
  { assert ((inject_Z h * (inject_Z target / inject_Z h) == inject_Z target)%Q)
      by (field; lra). nra. }
  set (Nw := py_round (inject_Z w * r)). set (Nh := py_round (inject_Z h * r)).
  pose proof (py_round_near (inject_Z w * r)) as HNw. fold Nw in HNw.
  pose proof (py_round_near (inject_Z h * r)) as HNh. fold Nh in HNh.
  assert (HNw' : Nw <= target).
  { assert ((inject_Z Nw < inject_Z (target + 1))%Q) as H
      by (rewrite inject_Z_plus; change (inject_Z 1) with 1%Q; lra).
    rewrite <- Zlt_Qlt in H. lia. }
  assert (HNh' : Nh <= target).
  { assert ((inject_Z Nh < inject_Z (target + 1))%Q) as H
      by (rewrite inject_Z_plus; change (inject_Z 1) with 1%Q; lra).
    rewrite <- Zlt_Qlt in H. lia. }
  destruct (padding_split (target - Nw)) as [-> ->].
  destruct (padding_split (target - Nh)) as [-> ->].
  pose proof (Z.div_mod (target - Nw) 2 ltac:(lia)) as Hdw.
  pose proof (Z.mod_pos_bound (target - Nw) 2 ltac:(lia)) as Hmw.
  pose proof (Z.div_mod (target - Nh) 2 ltac:(lia)) as Hdh.
  pose proof (Z.mod_pos_bound (target - Nh) 2 ltac:(lia)) as Hmh.
  split_and!; try lia.
  - intros Hle. apply py_round_unique.
    assert (Hr : (r == inject_Z target / inject_Z w)%Q).
    { unfold r, Qminq.
      destruct (Qle_bool _ _) eqn:E; [| reflexivity].
      apply Qle_bool_iff in E.
      assert ((inject_Z h <= inject_Z w)%Q) by (by rewrite <- Zle_Qle).
      assert ((inject_Z target / inject_Z w <= inject_Z target / inject_Z h)%Q).
      { apply Qle_shift_div_l; [lra |].
        assert ((inject_Z target / inject_Z w * inject_Z w == inject_Z target)%Q)
          by (field; lra).
        assert ((0 < inject_Z target / inject_Z w)%Q)
          by (apply Qlt_shift_div_l; lra).
        nra. }
      lra. }
    rewrite Hr.
    assert ((inject_Z w * (inject_Z target / inject_Z w) == inject_Z target)%Q)
      as -> by (field; lra).
    lra.
  - intros Hle. apply py_round_unique.
    assert (Hr : (r == inject_Z target / inject_Z h)%Q).
    { unfold r, Qminq.
      destruct (Qle_bool _ _) eqn:E; [reflexivity |].
      assert (~ (inject_Z target / inject_Z h <= inject_Z target / inject_Z w)%Q)
        as Hn by (rewrite <- Qle_bool_iff; congruence).
      exfalso. apply Hn.
      assert ((inject_Z w <= inject_Z h)%Q) by (by rewrite <- Zle_Qle).
      apply Qle_shift_div_l; [lra |].
      assert ((inject_Z target / inject_Z h * inject_Z h == inject_Z target)%Q)
        by (field; lra).
      assert ((0 < inject_Z target / inject_Z h)%Q)
        by (apply Qlt_shift_div_l; lra).
      nra. }
    rewrite Hr.
    assert ((inject_Z h * (inject_Z target / inject_Z h) == inject_Z target)%Q)
      as -> by (field; lra).
    lra.
Qed.

(** For positive sizes [_letterbox] returns exactly when neither resized
    side rounds to 0, and raises in [cv2.resize] otherwise. *)
Lemma _letterbox_returns (h w target stride : Z) :
  0 < h -> 0 < w -> 0 < target ->
  let g := letterbox_geometry h w target stride in
  (1 <= fst (new_unpad g) /\ 1 <= snd (new_unpad g) ->
   _letterbox h w target stride = Val g)
  /\ (~ (1 <= fst (new_unpad g) /\ 1 <= snd (new_unpad g)) ->
      _letterbox h w target stride = Raise Cv2Error).
Proof.
  intros Hh Hw Ht g.
  pose proof (letterbox_geometry_canvas h w target stride Hh Hw Ht) as Hc.
  cbv zeta in Hc. fold g in Hc.
  destruct Hc as (_ & _ & Hl & Hr & Htp & Hb & _).
  unfold _letterbox. cbv zeta. fold g.
  replace ((h =? 0) || (w =? 0)) with false by lia.
  assert (Hbf : border_fails g = false) by (unfold border_fails; lia).
  rewrite Hbf. unfold resize_fails.
  split.
  - intros [H1 H2].
    replace ((fst (new_unpad g) <=? 0) || (snd (new_unpad g) <=? 0))
      with false by lia.
    by rewrite andb_false_r.
  - intros Hn.
    case_bool_decide as Heq.
    + exfalso. apply Hn. rewrite Heq. cbn [fst snd]. lia.
    + replace ((fst (new_unpad g) <=? 0) || (snd (new_unpad g) <=? 0))
        with true by lia.
      done.
Qed.

(** For positive sizes, [_letterbox] returns exactly when neither resized
    side rounds to 0 and raises in [cv2.resize] otherwise; the image it
    returns is exactly [target x target]: the resized image has at least
    one pixel a side and fits in the canvas, its longer side fills it, and
    each padding is split into two non-negative parts that add up to the
    free space and differ by at most one pixel, the smaller one leading. *)
Theorem letterbox_fills_canvas (h w target stride : Z) :
  0 < h -> 0 < w -> 0 < target ->
  (forall e, _letterbox h w target stride = Raise e ->
     e = Cv2Error
     /\ (py_round (inject_Z w * Qminq (inject_Z target / inject_Z h)
                                      (inject_Z target / inject_Z w)) <= 0
         \/ py_round (inject_Z h * Qminq (inject_Z target / inject_Z h)
                                         (inject_Z target / inject_Z w)) <= 0))
  /\ (forall lb, _letterbox h w target stride = Val lb ->
       1 <= fst (new_unpad lb) /\ 1 <= snd (new_unpad lb)
       /\ fst (new_unpad lb) + left lb + right lb = target
       /\ snd (new_unpad lb) + top lb + bottom lb = target
       /\ 0 <= left lb <= right lb /\ right lb <= left lb + 1
       /\ 0 <= top lb <= bottom lb /\ bottom lb <= top lb + 1
       /\ (h <= w -> fst (new_unpad lb) = target)
       /\ (w <= h -> snd (new_unpad lb) = target)).
Proof.
  intros Hh Hw Ht.
  pose proof (_letterbox_returns h w target stride Hh Hw Ht) as [Hret Hraise].
  pose proof (letterbox_geometry_canvas h w target stride Hh Hw Ht) as Hc.
  cbv zeta in Hret, Hraise, Hc.
  set (g := letterbox_geometry h w target stride) in *.
  destruct (decide (1 <= fst (new_unpad g) /\ 1 <= snd (new_unpad g)))
    as [Hok | Hbad].
  - split.
    + intros e He. rewrite (Hret Hok) in He. discriminate.
    + intros lb Hlb. rewrite (Hret Hok) in Hlb. injection Hlb as <-.
      destruct Hok. split_and!; try done; apply Hc.
  - split.
    + intros e He. rewrite (Hraise Hbad) in He. injection He as <-.
      split; [done |].
      change (fst (new_unpad g) <= 0 \/ snd (new_unpad g) <= 0). lia.
    + intros lb Hlb. rewrite (Hraise Hbad) in Hlb. discriminate.
Qed.

Lemma letterbox_fills_canvas_witness :
  (forall e, _letterbox 701 1000 640 32 = Raise e ->
     e = Cv2Error
     /\ (py_round (inject_Z 1000 * Qminq (inject_Z 640 / inject_Z 701)
                                         (inject_Z 640 / inject_Z 1000)) <= 0
         \/ py_round (inject_Z 701 * Qminq (inject_Z 640 / inject_Z 701)
                                         (inject_Z 640 / inject_Z 1000)) <= 0))
  /\ (forall lb, _letterbox 701 1000 640 32 = Val lb ->
       1 <= fst (new_unpad lb) /\ 1 <= snd (new_unpad lb)
       /\ fst (new_unpad lb) + left lb + right lb = 640
       /\ snd (new_unpad lb) + top lb + bottom lb = 640
       /\ 0 <= left lb <= right lb /\ right lb <= left lb + 1
       /\ 0 <= top lb <= bottom lb /\ bottom lb <= top lb + 1
       /\ (701 <= 1000 -> fst (new_unpad lb) = 640)
       /\ (1000 <= 701 -> snd (new_unpad lb) = 640)).
Proof.
  apply (letterbox_fills_canvas 701 1000 640 32); reflexivity.
Defined.

Lemma axis_exact (T n N' lead o r x : Q) :
  (0 < n)%Q -> (0 < r)%Q -> (N' == n * r)%Q -> (lead == (T - N') / 2)%Q ->
  ((x * N' / n + lead - (T - n * r) / 2) / r + o == x + o)%Q.
Proof.
  intros Hn Hr HN Hl. rewrite Hl, HN. field. split; lra.
Qed.

(** When [_letterbox] has nothing to round (the scaled width and height
    are whole numbers and both free spaces are even), [_letterbox] returns
    and mapping a letterboxed point back recovers it exactly, with the crop
    origin added; this holds for every point, inside the image or not. *)
Theorem letterbox_round_trip_exact (h w target stride ox oy nw nh : Z) (x y : Q) :
  0 < h -> 0 < w -> 0 < target ->
  let scale := fst (ratio (letterbox_geometry h w target stride)) in
  (inject_Z w * scale == inject_Z nw)%Q ->
  (inject_Z h * scale == inject_Z nh)%Q ->
  Z.even (target - nw) = true ->
  Z.even (target - nh) = true ->
  exists q,
    round_trip h w target stride (ox, oy) (x, y) = Val q
    /\ (fst q == x + inject_Z ox)%Q /\ (snd q == y + inject_Z oy)%Q.
Proof.
  intros Hh Hw Ht scale Hnw Hnh Hew Heh.
  assert (HhQ : (0 < inject_Z h)%Q) by (rewrite <- (Zlt_Qlt 0); lia).
  assert (HwQ : (0 < inject_Z w)%Q) by (rewrite <- (Zlt_Qlt 0); lia).
  assert (HtQ : (0 < inject_Z target)%Q) by (rewrite <- (Zlt_Qlt 0); lia).
  unfold scale in Hnw, Hnh. clear scale.
  pose proof (_letterbox_returns h w target stride Hh Hw Ht) as [Hret _].
  cbv zeta in Hret.
  unfold letterbox_geometry in Hnw, Hnh.
  cbn [fst snd ratio] in Hnw, Hnh.
  set (r1 := Qminq (inject_Z target / inject_Z h) (inject_Z target / inject_Z w)) in *.
  set (r2 := Qminq (inject_Z target / inject_Z w) (inject_Z target / inject_Z h)).
  assert (Hr : (r1 == r2)%Q) by apply Qminq_comm.
  assert (Hr2 : (0 < r2)%Q).
  { apply Qminq_pos; apply Qlt_shift_div_l; lra. }
  assert (HNw : py_round (inject_Z w * r1) = nw)
    by (apply py_round_unique; rewrite Hnw; lra).
  assert (HNh : py_round (inject_Z h * r1) = nh)
    by (apply py_round_unique; rewrite Hnh; lra).
  assert (Hnwpos : 1 <= nw).
  { assert ((inject_Z 0 < inject_Z nw)%Q) as H
      by (change (inject_Z 0) with 0%Q; rewrite <- Hnw; nra).
    rewrite <- Zlt_Qlt in H. lia. }
  assert (Hnhpos : 1 <= nh).
  { assert ((inject_Z 0 < inject_Z nh)%Q) as H
      by (change (inject_Z 0) with 0%Q; rewrite <- Hnh; nra).
    rewrite <- Zlt_Qlt in H. lia. }
  unfold round_trip. rewrite Hret; cycle 1.
  { unfold letterbox_geometry. cbn [fst snd new_unpad]. fold r1.
    rewrite HNw, HNh. done. }
  exc_simpl. eexists. split; [reflexivity |].
  unfold unletterbox, letterbox_forward, letterbox_geometry.
  cbn [fst snd ratio new_unpad left top dw dh].
  fold r1 r2.
  rewrite HNw, HNh.
  destruct (padding_split (target - nw)) as [-> _].
  destruct (padding_split (target - nh)) as [-> _].
  assert (Hhalf : forall n, Z.even n = true ->
            (inject_Z (n / 2) == inject_Z n / 2)%Q).
  { intros n Hn. apply Z.even_spec in Hn as [k ->].
    rewrite Z.mul_comm, Z.div_mul by lia. rewrite inject_Z_mult.
    change (inject_Z 2) with 2%Q. field. }
  rewrite Hr in Hnw, Hnh.
  split; apply axis_exact; try done.
  - by rewrite Hhalf, inject_Z_sub.
  - by rewrite Hhalf, inject_Z_sub.
Qed.

Lemma letterbox_round_trip_exact_witness :
  exists q,
    round_trip 700 1000 640 32 (100, 50)%Z (3 # 7, 640)%Q = Val q
    /\ (fst q == (3 # 7) + inject_Z 100)%Q
    /\ (snd q == 640 + inject_Z 50)%Q.
Proof.
  apply (letterbox_round_trip_exact 700 1000 640 32 100 50 640 448);
    vm_compute; reflexivity.
Defined.
